(** * Command loading and dispatch (command manager)

    A shallow embedding of the command manager of the bot framework:
    [handleCommandError], [getDuplicateAlias], the settings-tree builders,
    [CommandManager.load] and [CommandManager.processInput].

    JavaScript strings are sequences of UTF-16 code units, so [U+3000] is
    one element.  Calls on the logger and on the chat transport are
    recorded as a trace of [effect]s. *)

From Stdlib Require Import List ZArith NArith Bool Lia String Ascii.
Import ListNotations.

Set Warnings "-register-all".

Open Scope Z_scope.

(** ** JavaScript strings *)

Definition jsstring := list N.

Definition jsstring_eq_dec : forall a b : jsstring, {a = b} + {a <> b} :=
  list_eq_dec N.eq_dec.

(** Code units of an ASCII literal. *)
Definition str (s : string) : jsstring :=
  map N_of_ascii (list_ascii_of_string s).

Definition SPACE : N := 32%N.
Definition IDEOGRAPHIC_SPACE : N := 12288%N.   (* U+3000 *)

Fixpoint isPrefix (pat s : jsstring) : bool :=
  match pat, s with
  | [], _ => true
  | _ :: _, [] => false
  | p :: pat', c :: s' => N.eqb p c && isPrefix pat' s'
  end.

Fixpoint indexOfFrom (pat s : jsstring) (i : Z) : Z :=
  if isPrefix pat s then i
  else match s with
       | [] => -1
       | _ :: s' => indexOfFrom pat s' (i + 1)
       end.

(** [s.indexOf(pat)]: position of the first occurrence, [-1] when absent. *)
Definition String_indexOf (s pat : jsstring) : Z := indexOfFrom pat s 0.

Definition clamp (len i : Z) : Z := Z.max 0 (Z.min i len).

(** [s.substring(a, b)]: both ends clamped to the string, swapped when
    out of order. *)
Definition substring (s : jsstring) (a b : Z) : jsstring :=
  let len := Z.of_nat (List.length s) in
  let a' := clamp len a in
  let b' := clamp len b in
  let lo := Z.min a' b' in
  let hi := Z.max a' b' in
  firstn (Z.to_nat (hi - lo)) (skipn (Z.to_nat lo) s).

(** [s.replace(pat, rep)] with a string pattern: only the first
    occurrence is replaced. *)
Definition String_replace (s pat rep : jsstring) : jsstring :=
  let i := String_indexOf s pat in
  if i =? -1 then s
  else firstn (Z.to_nat i) s ++ rep
       ++ skipn (Z.to_nat i + List.length pat) s.

(** White space and line terminators stripped by [trim]. *)
Definition isWhiteSpace (c : N) : bool :=
  ((9 <=? c) && (c <=? 13) || (c =? 32) || (c =? 160) || (c =? 5760)
   || (8192 <=? c) && (c <=? 8202) || (c =? 8232) || (c =? 8233)
   || (c =? 8239) || (c =? 8287) || (c =? 12288) || (c =? 65279))%N.

Fixpoint trimStart (s : jsstring) : jsstring :=
  match s with
  | [] => []
  | c :: s' => if isWhiteSpace c then trimStart s' else s
  end.

Definition trimEnd (s : jsstring) : jsstring := rev (trimStart (rev s)).

Definition trim (s : jsstring) : jsstring := trimEnd (trimStart s).

(** ASCII fragment of [toLowerCase], one code unit at a time. *)
Definition lower_unit (c : N) : N :=
  if ((65 <=? c) && (c <=? 90))%N then (c + 32)%N else c.

Definition ascii_toLowerCase (s : jsstring) : jsstring := map lower_unit s.

Definition isAscii (s : jsstring) : Prop := Forall (fun c => (c < 128)%N) s.

(** What is assumed of the engine's [String.prototype.toLowerCase]: on
    ASCII-only text it lowers [A]..[Z] and nothing else. *)
Definition lowercases_ascii (toLowerCase : jsstring -> jsstring) : Prop :=
  forall s, isAscii s -> toLowerCase s = ascii_toLowerCase s.

(** [arr.indexOf(x)] on an array of strings (strict equality). *)
Fixpoint Array_indexOfFrom (arr : list jsstring) (x : jsstring) (i : Z) : Z :=
  match arr with
  | [] => -1
  | y :: arr' =>
      if jsstring_eq_dec y x then i else Array_indexOfFrom arr' x (i + 1)
  end.

Definition Array_indexOf (arr : list jsstring) (x : jsstring) : Z :=
  Array_indexOfFrom arr x 0.

(** ** JavaScript values

    The values a handler can resolve to, throw or reject with.  An object
    is represented by the properties the error handler reads and by
    whether it is an instance of [PublicError]; a property an object does
    not have is [JUndefined].  Numbers are integral here. *)

Inductive jsval : Type :=
| JUndefined
| JNull
| JBoolean (b : bool)
| JNumber (z : Z)
| JString (s : jsstring)
| JObject (isPublicError : bool)
          (logDescription publicMessage message internalErr : jsval).

Definition truthy (v : jsval) : bool :=
  match v with
  | JUndefined | JNull => false
  | JBoolean b => b
  | JNumber z => negb (z =? 0)
  | JString s => match s with [] => false | _ => true end
  | JObject _ _ _ _ _ => true
  end.

(** [typeof v === typeof ''] *)
Definition isString (v : jsval) : bool :=
  match v with JString _ => true | _ => false end.

(** Normal completion or a thrown [TypeError]. *)
Inductive completion (A : Type) : Type :=
| Normal (a : A)
| ThrowTypeError.
Arguments Normal {A} a.
Arguments ThrowTypeError {A}.

Definition bind {A B} (c : completion A) (k : A -> completion B)
  : completion B :=
  match c with
  | Normal a => k a
  | ThrowTypeError => ThrowTypeError
  end.

Notation "x <- c ;; k" := (bind c (fun x => k))
  (at level 61, c at next level, right associativity).

Inductive property := PLogDescription | PPublicMessage | PMessage | PInternalErr.

(** [v.p]: reading a property of [undefined] or [null] throws; a
    primitive has none of these properties. *)
Definition getProp (v : jsval) (p : property) : completion jsval :=
  match v with
  | JUndefined | JNull => ThrowTypeError
  | JObject _ ld pm m ie =>
      Normal match p with
             | PLogDescription => ld
             | PPublicMessage => pm
             | PMessage => m
             | PInternalErr => ie
             end
  | _ => Normal JUndefined
  end.

(** [m.indexOf(pat)] where [m] is [undefined], [null], a boolean, a number
    or a string: only the string has the method.  An object stands here for
    one without an [indexOf] method, which an array or a [String] object is
    not; statements that depend on it leave object messages out. *)
Definition call_indexOf (m : jsval) (pat : jsstring) : completion Z :=
  match m with
  | JString s => Normal (String_indexOf s pat)
  | _ => ThrowTypeError
  end.

Definition instanceofPublicError (v : jsval) : bool :=
  match v with
  | JObject b _ _ _ _ => b
  | _ => false
  end.

(** ** Messages, configuration, effects *)

Record Message := { content : jsstring; channel : N }.

Record Config := {
  missingPermissionsErrorMessage : jsval;
  genericErrorMessage : jsval
}.

Inductive HandlerOutcome : Type :=
| Throws (err : jsval)       (* throws during the call *)
| Resolves (result : jsval)  (* returns a value or a promise fulfilled with it *)
| Rejects (err : jsval)      (* returns a promise that rejects *)
| Pending.                   (* returns a promise that never settles *)

(** Modelled from the spec: the command wrapper (command.js) is not part
    of the sources; a command exposes its aliases, an optional unique id
    and its handler.  The record holds the fields; what the data model of
    the spec requires of the aliases is [wellFormedAliases] below. *)
Record Command := {
  aliases : list jsstring;
  uniqueId : option jsstring;
  handle : Message -> jsstring -> Config -> HandlerOutcome
}.

Inductive effect : Type :=
| Handle (command : Command) (msg : Message) (suffix : jsstring) (config : Config)
| CreateMessage (chan : N) (text : jsval)
| LogInputReaction (title : jsstring) (msg : Message) (note : jsstring)
                   (success : bool) (description : jsval)
| LogFailure (title : jsstring) (description : jsstring) (cause : jsval).

(** ** handleCommandError *)

Definition handleCommandError (msg : Message) (err : jsval) (config : Config)
  : completion (list effect) :=
  let loggerTitle := str "COMMAND" in
  errDescription <- getProp err PLogDescription ;;
  publicMessage <- getProp err PPublicMessage ;;
  missing <-
    (if negb (truthy publicMessage) then
       m <- getProp err PMessage ;;
       i <- call_indexOf m (str "Missing Permissions") ;;
       Normal (negb (i =? -1) && truthy (missingPermissionsErrorMessage config))
     else Normal false) ;;
  let publicMessage :=
    if missing then missingPermissionsErrorMessage config else publicMessage in
  let errDescription :=
    if missing then
      if negb (truthy errDescription) then JString (str "Missing permissions")
      else errDescription
    else errDescription in
  let errDescription :=
    if negb (truthy errDescription)
    then JString (str "Exception or promise rejection")
    else errDescription in
  let publicMessage :=
    if negb (truthy publicMessage) then genericErrorMessage config
    else publicMessage in
  internalErr <-
    (if instanceofPublicError err then getProp err PInternalErr
     else Normal err) ;;
  Normal
    ((if truthy publicMessage
      then [CreateMessage (channel msg) publicMessage] else [])
     ++ [LogInputReaction loggerTitle msg [] false errDescription]
     ++ (if truthy internalErr
         then [LogFailure loggerTitle
                 (str "Command '" ++ content msg
                  ++ str "' threw an exception or returned a promise that rejected.")
                 internalErr]
         else [])).

(** ** getDuplicateAlias *)

Definition hasAlias (alias : jsstring) (cmd : Command) : bool :=
  negb (Array_indexOf (aliases cmd) alias =? -1).

(** The first alias of [command], in its own order, that some command of
    [otherCommands] also lists; [None] is the [undefined] the function
    falls through to. *)
Fixpoint duplicateAmong (aliasList : list jsstring) (otherCommands : list Command)
  : option jsstring :=
  match aliasList with
  | [] => None
  | alias :: more =>
      match find (hasAlias alias) otherCommands with
      | Some _ => Some alias
      | None => duplicateAmong more otherCommands
      end
  end.

Definition getDuplicateAlias (command : Command) (otherCommands : list Command)
  : option jsstring :=
  duplicateAmong (aliases command) otherCommands.

(** ** Settings tree *)

Inductive SettingsNode : Type :=
| SETTING (name description valueType : jsstring)
          (defaultDatabaseFacingValue : jsval)
| CATEGORY (name : jsstring) (children : list SettingsNode).

(** [userCommand.aliases[0]] as it is spliced into a string: an empty
    alias array gives the text of [undefined]. *)
Definition firstAliasText (userCommand : Command) : jsstring :=
  match aliases userCommand with
  | alias :: _ => alias
  | [] => str "undefined"
  end.

Definition createSettingsHierarchyForCommand (userCommand : Command)
  : SettingsNode :=
  SETTING
    (firstAliasText userCommand ++ str "_enabled")
    (str "This setting controls whether the " ++ firstAliasText userCommand
     ++ str " command (and all of its aliases) is allowed to be used or not.")
    (str "BOOLEAN")
    (JBoolean true).

Definition createSettingsHierarchyForCommands (userCommands : list Command)
  : list SettingsNode :=
  map createSettingsHierarchyForCommand userCommands.

Definition createSettingsCategoryForCommands (userCommands : list Command)
  : SettingsNode :=
  CATEGORY (str "commands") (createSettingsHierarchyForCommands userCommands).

(** ** CommandManager *)

(** Outcome of [FileSystemUtils.getFilesInDirectory]. *)
Inductive Enumeration : Type :=
| Listed (commandFiles : list jsstring)
| EnumerationFailed (err : jsval).

Section Manager.

(** The function handed to the reload command, and the settings manager
    handed to the settings command: opaque to the manager. *)
Variables ReloadAction SettingsManager : Type.

(** [reload(commandFile)] followed by [new Command(...)]: a command, or
    the value thrown. *)
Variable construct : jsstring -> Command + jsval.

(** The built-in commands, already wrapped; they are the framework's own
    and their construction is taken not to throw. *)
Variables AllowCommand UnrestrictCommand BanCommand : list Command -> Command.
Variable SettingsCommand : SettingsManager -> Config -> Command.
Variable ReloadCommand : ReloadAction -> Command.

(** The engine's [String.prototype.toLowerCase]. *)
Variable toLowerCase : jsstring -> jsstring.

Record CommandManager := {
  commands_ : list Command;
  settingsCategory_ : option SettingsNode;
  reloadAction_ : option ReloadAction
}.

Definition FailedToLoadMessageStart : jsstring :=
  str "Failed to load command from file: ".

Definition managerTitle : jsstring := str "COMMAND MANAGER".

(** [command.uniqueId && commands.find(cmd => cmd.uniqueId === command.uniqueId)] *)
Definition uniqueIdTaken (command : Command) (commands : list Command) : bool :=
  match uniqueId command with
  | Some ((_ :: _) as id) =>
      match find (fun cmd =>
                    match uniqueId cmd with
                    | Some id' => if jsstring_eq_dec id' id then true else false
                    | None => false
                    end) commands with
      | Some _ => true
      | None => false
      end
  | _ => false
  end.

Definition uniqueIdText (command : Command) : jsstring :=
  match uniqueId command with
  | Some id => id
  | None => str "undefined"
  end.

(** [if (duplicateAlias)]: an alias that is the empty string is falsy. *)
Definition truthyAlias (duplicateAlias : option jsstring) : bool :=
  match duplicateAlias with
  | Some (_ :: _) => true
  | _ => false
  end.

Definition aliasText (duplicateAlias : option jsstring) : jsstring :=
  match duplicateAlias with
  | Some alias => alias
  | None => str "undefined"
  end.

(** One turn of the loop over the command files. *)
Definition loadCommandFile (commandFile : jsstring)
           (s : list Command * list effect) : list Command * list effect :=
  let (commands, log) := s in
  match construct commandFile with
  | inr e =>
      (commands,
       log ++ [LogFailure managerTitle
                 (FailedToLoadMessageStart ++ commandFile) e])
  | inl command =>
      if uniqueIdTaken command commands then
        (commands,
         log ++ [LogFailure managerTitle
                   (FailedToLoadMessageStart ++ commandFile
                    ++ str ". Error: uniqueId: " ++ uniqueIdText command
                    ++ str " not unique") JUndefined])
      else
        let duplicateAlias := getDuplicateAlias command commands in
        if truthyAlias duplicateAlias then
          (commands,
           log ++ [LogFailure managerTitle
                     (FailedToLoadMessageStart ++ commandFile
                      ++ str ". Error: alias: " ++ aliasText duplicateAlias
                      ++ str " is not unique") JUndefined])
        else (commands ++ [command], log)
  end.

Fixpoint loadCommandFiles (commandFiles : list jsstring)
         (s : list Command * list effect) : list Command * list effect :=
  match commandFiles with
  | [] => s
  | commandFile :: more => loadCommandFiles more (loadCommandFile commandFile s)
  end.

(** The synchronous part of [load], before the directory is read. *)
Definition loadBegin (m : CommandManager) : CommandManager :=
  {| commands_ := [];
     settingsCategory_ := settingsCategory_ m;
     reloadAction_ := reloadAction_ m |}.

Definition builtInCommands (m : CommandManager)
           (settingsManager : SettingsManager) (config : Config)
           (userCommands : list Command) : list Command :=
  [AllowCommand userCommands; UnrestrictCommand userCommands;
   BanCommand userCommands; SettingsCommand settingsManager config]
  ++ match reloadAction_ m with
     | Some action => [ReloadCommand action]
     | None => []
     end.

(** The callbacks run when the enumeration settles. *)
Definition loadSettle (m : CommandManager)
           (settingsManager : SettingsManager) (config : Config)
           (files : Enumeration) : CommandManager * list effect :=
  match files with
  | Listed commandFiles =>
      let (userCommands, log) :=
        loadCommandFiles commandFiles (commands_ m, []) in
      ({| commands_ :=
            userCommands
            ++ builtInCommands m settingsManager config userCommands;
          settingsCategory_ :=
            Some (createSettingsCategoryForCommands userCommands);
          reloadAction_ := reloadAction_ m |},
       log)
  | EnumerationFailed err =>
      (m, [LogFailure managerTitle (str "Error loading commands.") err])
  end.

Definition load (m : CommandManager)
           (settingsManager : SettingsManager) (config : Config)
           (files : Enumeration) : CommandManager * list effect :=
  loadSettle (loadBegin m) settingsManager config files.

(** *** processInput *)

(** What a call of [processInput] does: the effects before it returns,
    its completion, and what the promise chain does afterwards
    ([ThrowTypeError]: the chain ends in an unhandled rejection). *)
Record Dispatch := {
  immediate : list effect;
  returned : completion bool;
  deferred : completion (list effect)
}.

Definition inputTitle : jsstring := str "COMMAND".

Definition invoke (command : Command) (msg : Message) (suffix : jsstring)
           (config : Config) : Dispatch :=
  let call := Handle command msg suffix config in
  match handle command msg suffix config with
  | Throws err =>
      match handleCommandError msg err config with
      | Normal effects =>
          {| immediate := call :: effects;
             returned := Normal true;
             deferred := Normal [] |}
      | ThrowTypeError =>
          {| immediate := [call];
             returned := ThrowTypeError;
             deferred := Normal [] |}
      end
  | Resolves result =>
      let success := negb (isString result) in
      {| immediate := [call];
         returned := Normal true;
         deferred :=
           Normal [LogInputReaction inputTitle msg [] success result] |}
  | Rejects err =>
      {| immediate := [call];
         returned := Normal true;
         deferred := handleCommandError msg err config |}
  | Pending =>
      {| immediate := [call];
         returned := Normal true;
         deferred := Normal [] |}
  end.

Definition commandTextOf (msgContent : jsstring) (spaceIndex : Z) : jsstring :=
  toLowerCase
    (if spaceIndex =? -1 then msgContent
     else substring msgContent 0 spaceIndex).

Definition suffixOf (msgContent : jsstring) (spaceIndex : Z) : jsstring :=
  if negb (spaceIndex =? -1) then
    trim (substring msgContent (spaceIndex + 1)
            (Z.of_nat (List.length msgContent)))
  else [].

Fixpoint scanCommands (commands : list Command) (msg : Message)
         (config : Config) (msgContent : jsstring) (spaceIndex : Z)
         (commandText : jsstring) : Dispatch :=
  match commands with
  | [] =>
      {| immediate := []; returned := Normal false; deferred := Normal [] |}
  | command :: more =>
      if negb (Array_indexOf (aliases command) commandText =? -1) then
        invoke command msg (suffixOf msgContent spaceIndex) config
      else scanCommands more msg config msgContent spaceIndex commandText
  end.

Definition normalize (text : jsstring) : jsstring :=
  String_replace text [IDEOGRAPHIC_SPACE] [SPACE].

Definition processInput (m : CommandManager) (msg : Message)
           (config : Config) : Dispatch :=
  let msgContent := normalize (content msg) in
  let spaceIndex := String_indexOf msgContent [SPACE] in
  let commandText := commandTextOf msgContent spaceIndex in
  scanCommands (commands_ m) msg config msgContent spaceIndex commandText.

(** The candidate command text and the suffix of a message, as
    [processInput] computes them. *)
Definition inputCommandText (msg : Message) : jsstring :=
  let msgContent := normalize (content msg) in
  commandTextOf msgContent (String_indexOf msgContent [SPACE]).

Definition inputSuffix (msg : Message) : jsstring :=
  let msgContent := normalize (content msg) in
  suffixOf msgContent (String_indexOf msgContent [SPACE]).

End Manager.

Arguments commands_ {ReloadAction} _.
Arguments settingsCategory_ {ReloadAction} _.
Arguments reloadAction_ {ReloadAction} _.
Arguments Build_CommandManager {ReloadAction} _ _ _.
Arguments loadBegin {ReloadAction} _.
Arguments processInput {ReloadAction} toLowerCase m msg config.

(** [command] is the first command of [commands], in registration order,
    whose alias array contains [commandText]. *)
Definition selects (commands : list Command) (commandText : jsstring)
           (command : Command) : Prop :=
  exists before after,
    commands = before ++ command :: after
    /\ In commandText (aliases command)
    /\ forall c, In c before -> ~ In commandText (aliases c).

(** The failure logged for a candidate whose alias is already taken. *)
Definition duplicateAliasFailure (commandFile alias : jsstring) : effect :=
  LogFailure managerTitle
    (FailedToLoadMessageStart ++ commandFile ++ str ". Error: alias: "
     ++ alias ++ str " is not unique") JUndefined.

(** The failure logged for a candidate whose unique id is already taken. *)
Definition duplicateIdFailure (commandFile id : jsstring) : effect :=
  LogFailure managerTitle
    (FailedToLoadMessageStart ++ commandFile ++ str ". Error: uniqueId: "
     ++ id ++ str " not unique") JUndefined.

(** The text handed to the failure log by the error handler. *)
Definition failureText (msg : Message) : jsstring :=
  str "Command '" ++ content msg
  ++ str "' threw an exception or returned a promise that rejected.".

(** ** Concrete instances *)

(** The object literal [{}]: none of the properties the handler reads. *)
Definition plainObject : jsval :=
  JObject false JUndefined JUndefined JUndefined JUndefined.

Definition command (aliasList : list jsstring) (id : option jsstring)
           (outcome : HandlerOutcome) : Command :=
  {| aliases := aliasList;
     uniqueId := id;
     handle := fun _ _ _ => outcome |}.

Definition message (text : jsstring) : Message :=
  {| content := text; channel := 7%N |}.

Definition pingCommand : Command :=
  command [str "}ping"; str "}p"] None (Resolves (JString (str "pong"))).
Definition echoCommand : Command :=
  command [str "}echo"] None (Resolves JUndefined).
Definition throwingCommand : Command :=
  command [str "}throw"] None (Throws plainObject).
Definition rejectingCommand : Command :=
  command [str "}reject"] None (Rejects plainObject).
Definition mixedCasePing : Command :=
  command [str "}Ping"] None (Resolves JUndefined).
Definition firstA : Command :=
  command [str "}a"] (Some (str "x")) (Resolves JUndefined).
Definition secondA : Command :=
  command [str "}a"; str "}b"] (Some (str "x")) (Resolves JUndefined).
Definition thirdA : Command :=
  command [str "}c"; str "}a"] None (Resolves JUndefined).

Definition exampleConfig : Config :=
  {| missingPermissionsErrorMessage := JString (str "no perms");
     genericErrorMessage := JUndefined |}.

Definition manager (commands : list Command) : CommandManager unit :=
  {| commands_ := commands; settingsCategory_ := None; reloadAction_ := None |}.

(** A directory of four command files. *)
Definition exampleConstruct (commandFile : jsstring) : Command + jsval :=
  if jsstring_eq_dec commandFile (str "a1.js") then inl firstA
  else if jsstring_eq_dec commandFile (str "a2.js") then inl secondA
  else if jsstring_eq_dec commandFile (str "a3.js") then inl thirdA
  else if jsstring_eq_dec commandFile (str "ping.js") then inl pingCommand
  else if jsstring_eq_dec commandFile (str "Ping.js") then inl mixedCasePing
  else inr plainObject.

Definition builtIn (alias : string) : Command :=
  command [str alias] None (Resolves JUndefined).

Definition exampleLoad :=
  load unit unit exampleConstruct
       (fun _ => builtIn "}allow") (fun _ => builtIn "}unrestrict")
       (fun _ => builtIn "}ban") (fun _ _ => builtIn "}settings")
       (fun _ => builtIn "}reload").

(** ** The manager: construction and settings categories *)

(** [new CommandManager(directory, reloadAction, logger)]: no command and
    no settings category yet. *)
Definition newCommandManager {ReloadAction : Type}
           (reloadAction : option ReloadAction) : CommandManager ReloadAction :=
  {| commands_ := []; settingsCategory_ := None; reloadAction_ := reloadAction |}.

(** [collectSettingsCategories()]: an array of one element, which is
    [undefined] ([None]) as long as no load has got as far as building the
    category. *)
Definition collectSettingsCategories {ReloadAction : Type}
           (m : CommandManager ReloadAction) : list (option SettingsNode) :=
  [settingsCategory_ m].

(** A registry as the loop over the command files builds it: each command
    was pushed when its unique id was free and the alias scan reported
    nothing truthy. *)
Inductive Loaded : list Command -> Prop :=
| Loaded_nil : Loaded []
| Loaded_push (commands : list Command) (command : Command) :
    Loaded commands ->
    uniqueIdTaken command commands = false ->
    truthyAlias (getDuplicateAlias command commands) = false ->
    Loaded (commands ++ [command]).

(** A failure entry written by the manager. *)
Definition managerFailure (entry : effect) : Prop :=
  exists description cause, entry = LogFailure managerTitle description cause.


(** The message of the error is not an object: it is [undefined], [null],
    a boolean, a number or a string. *)
Definition messageIsNoObject (err : jsval) : Prop :=
  match getProp err PMessage with
  | Normal (JObject _ _ _ _ _) => False
  | _ => True
  end.

(** Three command files of which the second repeats the unique id of the
    first and shares an alias with the third. *)
Definition onlyB : Command :=
  command [str "}b"] None (Resolves JUndefined).

Definition collidingConstruct (commandFile : jsstring) : Command + jsval :=
  if jsstring_eq_dec commandFile (str "a1.js") then inl firstA
  else if jsstring_eq_dec commandFile (str "a2.js") then inl secondA
  else if jsstring_eq_dec commandFile (str "b.js") then inl onlyB
  else inr plainObject.

(** The code units [A]..[Z]. *)
Definition isUpperUnit (c : N) : bool := ((65 <=? c) && (c <=? 90))%N.

(** What dispatch does with input no command claims. *)
Definition unclaimed : Dispatch :=
  {| immediate := []; returned := Normal false; deferred := Normal [] |}.

(** The name of the setting of a user command. *)
Definition settingName (node : SettingsNode) : jsstring :=
  match node with
  | SETTING name _ _ _ => name
  | CATEGORY name _ => name
  end.

(** ** Font helper (font_helper.js)

    The parts of the font helper that work on the loaded fonts and on the
    map of supported characters. *)

Module FontHelper.

(** A font as [loadFontsSync] records it. *)
Record Font := {
  filePaths : list jsstring;
  fontFamily : jsstring;
  order : Z;
  description : jsstring;
  hidden : bool
}.

(** The object [supportedCharactersForFontFamily]: for a font family that
    is a key of it, which characters map to a truthy value. *)
Definition SupportedCharacters := jsstring -> option (jsstring -> bool).

Record FontHelper := {
  fonts : list Font;
  allowedFonts : list Font;
  supportedCharactersForFontFamily : SupportedCharacters
}.


Definition isHighSurrogate (c : N) : bool := ((55296 <=? c) && (c <=? 56319))%N.
Definition isLowSurrogate (c : N) : bool := ((56320 <=? c) && (c <=? 57343))%N.

(** [Array.from(string)]: the string cut into code points, a surrogate
    pair staying together. *)
Fixpoint Array_from (s : jsstring) : list jsstring :=
  match s with
  | [] => []
  | h :: t =>
      match t with
      | l :: t' =>
          if isHighSurrogate h && isLowSurrogate l
          then [h; l] :: Array_from t'
          else [h] :: Array_from t
      | [] => [[h]]
      end
  end.

(** One code unit, or a high surrogate followed by a low one. *)
Definition isCodePoint (character : jsstring) : Prop :=
  (exists c, character = [c])
  \/ exists h l, character = [h; l]
                 /\ isHighSurrogate h = true /\ isLowSurrogate l = true.

(** Truthiness of
    [supportedCharactersForFontFamily[fontFamily]
     && supportedCharactersForFontFamily[fontFamily][character]]. *)
Definition fontFamilyCanRenderCharacter
           (supported : SupportedCharacters) (family character : jsstring)
  : bool :=
  match supported family with
  | Some characters => characters character
  | None => false
  end.

Definition fontFamilyCanRenderString (this : FontHelper)
           (family string : jsstring) : bool :=
  forallb (fontFamilyCanRenderCharacter
             (supportedCharactersForFontFamily this) family)
          (Array_from string).

(** [this.fonts[0].fontFamily]: reading it off an empty array throws. *)
Definition firstFontFamily (this : FontHelper) : completion jsstring :=
  match fonts this with
  | f :: _ => Normal (fontFamily f)
  | [] => ThrowTypeError
  end.

Definition coerceFontFamily (this : FontHelper) (family string : jsstring)
  : completion jsstring :=
  if fontFamilyCanRenderString this family string then Normal family
  else
    let supportedFont :=
      find (fun f => fontFamilyCanRenderString this (fontFamily f) string)
           (fonts this) in
    match supportedFont with
    | Some f =>
        match fontFamily f with
        | _ :: _ => Normal (fontFamily f)
        | [] => firstFontFamily this
        end
    | None => firstFontFamily this
    end.



(** Two fonts and the characters they cover, for the examples. *)
Definition latinFont : Font :=
  {| filePaths := [str "fonts/latin/latin.ttf"];
     fontFamily := str "Latin";
     order := 2;
     description := str "Latin only";
     hidden := false |}.

Definition kanaFont : Font :=
  {| filePaths := [str "fonts/kana/kana.otf"];
     fontFamily := str "Kana";
     order := 1;
     description := str "Kana only";
     hidden := true |}.

Definition exampleSupported : SupportedCharacters :=
  fun family =>
    if jsstring_eq_dec family (str "Latin")
    then Some (fun character =>
                 match character with
                 | [c] => ((32 <=? c) && (c <? 127))%N
                 | _ => false
                 end)
    else if jsstring_eq_dec family (str "Kana")
    then Some (fun character =>
                 match character with
                 | [c] => ((12352 <=? c) && (c <? 12544))%N
                 | _ => false
                 end)
    else None.

Definition exampleHelper : FontHelper :=
  {| fonts := [kanaFont; latinFont];
     allowedFonts := [latinFont];
     supportedCharactersForFontFamily := exampleSupported |}.

End FontHelper.

(** ** Word data for shiritori (shiritori_word_data.js)

    The script reads a dictionary in EDICT format and indexes its entries
    by reading and by word.  The text of the file is the input here. *)

Module ShiritoriWordData.

(** [s.split(sep)] for a separator of one code unit. *)
Fixpoint split (sep : N) (s : jsstring) : list jsstring :=
  match s with
  | [] => [[]]
  | c :: s' =>
      if (c =? sep)%N then [] :: split sep s'
      else match split sep s' with
           | token :: more => (c :: token) :: more
           | [] => [[c]]
           end
  end.

(** [tokens.join(sep)] *)
Fixpoint join (sep : N) (tokens : list jsstring) : jsstring :=
  match tokens with
  | [] => []
  | token :: more =>
      match more with
      | [] => token
      | _ :: _ => token ++ sep :: join sep more
      end
  end.

Definition NEWLINE : N := 10%N.
Definition SLASH : N := 47%N.
Definition LEFT_PAREN : N := 40%N.
Definition RIGHT_PAREN : N := 41%N.
Definition LEFT_BRACKET : N := 91%N.
Definition RIGHT_BRACKET : N := 93%N.

(** [s.startsWith('[')] *)
Definition startsWithBracket (s : jsstring) : bool :=
  match s with
  | c :: _ => (c =? LEFT_BRACKET)%N
  | [] => false
  end.

(** The property names every object inherits from [Object.prototype]:
    looking one of them up in an object literal gives a truthy value that
    is neither a string nor an array. *)
Definition isObjectPrototypeKey (key : jsstring) : bool :=
  existsb (fun name => if jsstring_eq_dec key (str name) then true else false)
          ["constructor"; "__defineGetter__"; "__defineSetter__";
           "hasOwnProperty"; "__lookupGetter__"; "__lookupSetter__";
           "isPrototypeOf"; "propertyIsEnumerable"; "toString"; "valueOf";
           "__proto__"; "toLocaleString"]%string.

(** [.] of a regular expression matches anything but a line terminator. *)
Definition isLineTerminator (c : N) : bool :=
  ((c =? 10) || (c =? 13) || (c =? 8232) || (c =? 8233))%N.

(** [.*?\) ] at the head of [s]: the shortest run of characters, none a
    line terminator, followed by ") "; what was matched and what is left. *)
Fixpoint lazyBody (s : jsstring) : option (jsstring * jsstring) :=
  match s with
  | [] => None
  | c :: s' =>
      let closes :=
        match s' with
        | d :: _ => (c =? RIGHT_PAREN)%N && (d =? SPACE)%N
        | [] => false
        end in
      if closes then Some ([RIGHT_PAREN; SPACE], tl s')
      else if isLineTerminator c then None
      else match lazyBody s' with
           | Some (matched, rest) => Some (c :: matched, rest)
           | None => None
           end
  end.

(** [\(.*?\) ] at the head of [s]. *)
Definition group (s : jsstring) : option (jsstring * jsstring) :=
  match s with
  | c :: s' =>
      if (c =? LEFT_PAREN)%N then
        match lazyBody s' with
        | Some (matched, rest) => Some (c :: matched, rest)
        | None => None
        end
      else None
  | [] => None
  end.

(** Up to [n] more groups, as many as there are. *)
Fixpoint groups (n : nat) (s : jsstring) : jsstring :=
  match n with
  | O => []
  | S n' =>
      match group s with
      | Some (matched, rest) => matched ++ groups n' rest
      | None => []
      end
  end.

(** [s.match(partsOfSpeechPartRegex)]: the text of the leftmost match of
    one to ten groups, [None] for [null]. *)
Fixpoint matchPartsOfSpeech (s : jsstring) : option jsstring :=
  match group s with
  | Some (matched, rest) => Some (matched ++ groups 9 rest)
  | None =>
      match s with
      | [] => None
      | _ :: s' => matchPartsOfSpeech s'
      end
  end.

(** An element of [partsOfSpeech]: a string of the table, or what an
    inherited property name looks up. *)
Inductive PartOfSpeech : Type :=
| PartOfSpeechString (text : jsstring)
| InheritedProperty (key : jsstring).

(** [partOfSpeechStringForId[id]], [None] for [undefined]. *)
Definition partOfSpeechStringForId (id : jsstring) : option PartOfSpeech :=
  if jsstring_eq_dec id (str "n") then Some (PartOfSpeechString (str "noun"))
  else if isObjectPrototypeKey id then Some (InheritedProperty id)
  else None.

Record Definition_ := {
  meaning : jsstring;
  partsOfSpeech : list PartOfSpeech
}.

(** [new Definition(meaning, partsOfSpeechIds)] *)
Definition newDefinition (meaning : jsstring) (partsOfSpeechIds : list jsstring)
  : Definition_ :=
  {| meaning := meaning;
     partsOfSpeech :=
       flat_map (fun id => match partOfSpeechStringForId id with
                           | Some part => [part]
                           | None => []
                           end) partsOfSpeechIds |}.

Definition removeAll (c : N) (s : jsstring) : jsstring :=
  filter (fun x => negb (x =? c)%N) s.

Definition parseDefinitionPart (definitionPart : jsstring) : Definition_ :=
  match matchPartsOfSpeech definitionPart with
  | Some matched =>
      newDefinition
        (String_replace definitionPart matched [])
        (map trim
             (split SPACE
                    (trim (removeAll RIGHT_PAREN
                                     (removeAll LEFT_PAREN matched)))))
  | None => newDefinition definitionPart []
  end.

Record WordInformation := {
  word : jsstring;
  definitions : list Definition_
}.

(** An object used as a map from strings to arrays: its own properties. *)
Definition ObjectMap (A : Type) := list (jsstring * list A).

Fixpoint get {A : Type} (key : jsstring) (object : ObjectMap A) : list A :=
  match object with
  | [] => []
  | (k, values) :: more =>
      if jsstring_eq_dec k key then values else get key more
  end.

Fixpoint pushOwn {A : Type} (key : jsstring) (value : A) (object : ObjectMap A)
  : ObjectMap A :=
  match object with
  | [] => [(key, [value])]
  | (k, values) :: more =>
      if jsstring_eq_dec k key then (k, values ++ [value]) :: more
      else (k, values) :: pushOwn key value more
  end.

(** [if (!object[key]) object[key] = []; object[key].push(value)]: under an
    inherited property name the test finds a truthy value without [push]. *)
Definition push {A : Type} (key : jsstring) (value : A) (object : ObjectMap A)
  : completion (ObjectMap A) :=
  if isObjectPrototypeKey key then ThrowTypeError
  else Normal (pushOwn key value object).

Record Indexes := {
  wordInformationsForReading : ObjectMap WordInformation;
  readingsForWord : ObjectMap jsstring
}.

(** The word, the reading and the tokens left of a line. *)
Definition parseHead (line : jsstring)
  : completion (jsstring * jsstring * list jsstring) :=
  match split SPACE line with
  | [] => ThrowTypeError
  | word :: tokens =>
      match tokens with
      | [] => ThrowTypeError
      | readingPart :: more =>
          if startsWithBracket readingPart then
            Normal (word,
                    String_replace
                      (String_replace readingPart [LEFT_BRACKET] [])
                      [RIGHT_BRACKET] [],
                    more)
          else Normal (word, word, tokens)
      end
  end.

Definition parseDefinitions (tokens : list jsstring) : list Definition_ :=
  let definitionParts := split SLASH (join SPACE tokens) in
  map parseDefinitionPart (tl (removelast definitionParts)).

(** One turn of the loop over the lines. *)
Definition processLine (indexes : Indexes) (line : jsstring)
  : completion Indexes :=
  match line with
  | [] => Normal indexes
  | _ :: _ =>
      parsed <- parseHead line ;;
      let '(word, reading, tokens) := parsed in
      let definitions := parseDefinitions tokens in
      byReading <- push reading
                     {| word := word; definitions := definitions |}
                     (wordInformationsForReading indexes) ;;
      byWord <- push word reading (readingsForWord indexes) ;;
      Normal {| wordInformationsForReading := byReading;
                readingsForWord := byWord |}
  end.

Fixpoint processLines (indexes : Indexes) (lines : list jsstring)
  : completion Indexes :=
  match lines with
  | [] => Normal indexes
  | line :: more =>
      indexes' <- processLine indexes line ;;
      processLines indexes' more
  end.

Definition emptyIndexes : Indexes :=
  {| wordInformationsForReading := []; readingsForWord := [] |}.

(** The script, from the text of the dictionary file: the first line is a
    header. *)
Definition buildIndexes (fileText : jsstring) : completion Indexes :=
  processLines emptyIndexes (tl (split NEWLINE fileText)).

(** The two indexes list the same pairs of word and reading. *)
Definition consistent (indexes : Indexes) : Prop :=
  forall w r,
    In r (get w (readingsForWord indexes))
    <-> exists information,
      In information (get r (wordInformationsForReading indexes))
      /\ word information = w.

(** A tag without parentheses and without white space. *)
Definition plainTag (tag : jsstring) : Prop :=
  Forall (fun c => c <> LEFT_PAREN /\ c <> RIGHT_PAREN
                   /\ isWhiteSpace c = false) tag.

(** How many values an object holds over all its keys. *)
Definition countValues {A : Type} (object : ObjectMap A) : nat :=
  list_sum (map (fun entry => List.length (snd entry)) object).

End ShiritoriWordData.

(** ** Facts about the string primitives *)

Example trim_example :
  trim (str "  hello there " ++ [IDEOGRAPHIC_SPACE]) = str "hello there".
Proof. reflexivity. Qed.

Example substring_example :
  substring (str "}echo hi") 0 5 = str "}echo"
  /\ substring (str "}echo hi") 6 8 = str "hi"
  /\ substring (str "}echo hi") 6 2 = str "cho ".
Proof. repeat split. Qed.

Example replace_example :
  String_replace (str "a" ++ [IDEOGRAPHIC_SPACE] ++ str "b"
                  ++ [IDEOGRAPHIC_SPACE] ++ str "c")
                 [IDEOGRAPHIC_SPACE] [SPACE]
  = str "a b" ++ [IDEOGRAPHIC_SPACE] ++ str "c".
Proof. reflexivity. Qed.

Example indexOf_example :
  String_indexOf (str "Error: Missing Permissions") (str "Missing Permissions") = 7
  /\ String_indexOf (str "Missing Access") (str "Missing Permissions") = -1
  /\ Array_indexOf [str "}ping"; str "}p"] (str "}p") = 1
  /\ Array_indexOf [str "}ping"; str "}p"] (str "}P") = -1.
Proof. repeat split. Qed.

(** A directory listing with a repeated unique id, a repeated alias and a
    file that does not load. *)
Example load_example :
  let files := [str "a1.js"; str "a2.js"; str "a3.js"; str "nope.js";
                str "ping.js"] in
  loadCommandFiles exampleConstruct files ([], [])
  = ([firstA; pingCommand],
     [duplicateIdFailure (str "a2.js") (str "x");
      duplicateAliasFailure (str "a3.js") (str "}a");
      LogFailure managerTitle (FailedToLoadMessageStart ++ str "nope.js")
                 plainObject]).
Proof. reflexivity. Qed.

Lemma isPrefix_spec (pat s : jsstring) :
  isPrefix pat s = true <-> exists post, s = pat ++ post.
Proof.
  revert s; induction pat as [|p pat IH]; intros s; simpl.
  - split; [intros _; now exists s | reflexivity].
  - destruct s as [|c s].
    + split; [discriminate | intros [post H]; discriminate].
    + rewrite andb_true_iff, N.eqb_eq, IH. split.
      * intros [-> [post ->]]. now exists post.
      * intros [post H]. injection H as -> ->. split; [reflexivity | now exists post].
Qed.

Lemma indexOfFrom_found (pat s : jsstring) (i : Z) :
  0 <= i ->
  indexOfFrom pat s i <> -1 <-> exists pre post, s = pre ++ pat ++ post.
Proof.
  revert i; induction s as [|c s IH]; intros i Hi; simpl.
  - destruct (isPrefix pat []) eqn:E.
    + apply isPrefix_spec in E. destruct E as [post E].
      split; [intros _; exists [], post; exact E | lia].
    + split; [congruence |].
      intros (pre & post & H).
      destruct pre; [|discriminate]. simpl in H.
      assert (isPrefix pat [] = true) by (apply isPrefix_spec; now exists post).
      congruence.
  - destruct (isPrefix pat (c :: s)) eqn:E.
    + apply isPrefix_spec in E. destruct E as [post E].
      split; [intros _; exists [], post; exact E | lia].
    + rewrite IH by lia. split.
      * intros (pre & post & ->). now exists (c :: pre), post.
      * intros (pre & post & H). destruct pre as [|c' pre].
        -- assert (isPrefix pat (c :: s) = true)
             by (apply isPrefix_spec; now exists post).
           congruence.
        -- injection H as _ ->. now exists pre, post.
Qed.

(** [s.indexOf(pat) !== -1] exactly when [pat] occurs in [s]. *)
Lemma String_indexOf_found (s pat : jsstring) :
  String_indexOf s pat <> -1 <-> exists pre post, s = pre ++ pat ++ post.
Proof. apply indexOfFrom_found; lia. Qed.

Lemma isPrefix_unit (c x : N) (s : jsstring) :
  isPrefix [c] (x :: s) = (c =? x)%N.
Proof. simpl. apply andb_true_r. Qed.

Lemma indexOfFrom_unit_absent (c : N) (s : jsstring) (i : Z) :
  ~ In c s -> indexOfFrom [c] s i = -1.
Proof.
  revert i; induction s as [|x s IH]; intros i H; [reflexivity|].
  cbn [indexOfFrom]. rewrite isPrefix_unit.
  destruct (N.eqb_spec c x) as [->|_].
  - exfalso; apply H; now left.
  - apply IH. intros Hin; apply H; now right.
Qed.

Lemma indexOfFrom_unit_first (c : N) (pre post : jsstring) (i : Z) :
  ~ In c pre ->
  indexOfFrom [c] (pre ++ c :: post) i = i + Z.of_nat (List.length pre).
Proof.
  revert i; induction pre as [|x pre IH]; intros i H.
  - cbn [app indexOfFrom]. rewrite isPrefix_unit, N.eqb_refl. simpl; lia.
  - cbn [app indexOfFrom]. rewrite isPrefix_unit.
    destruct (N.eqb_spec c x) as [->|_].
    + exfalso; apply H; now left.
    + rewrite IH by (intros Hin; apply H; now right).
      cbn [List.length]. lia.
Qed.

Lemma substring_before (pre post : jsstring) (c : N) :
  substring (pre ++ c :: post) 0 (Z.of_nat (List.length pre)) = pre.
Proof.
  unfold substring, clamp. rewrite length_app. cbn [List.length].
  set (n := List.length pre). set (k := List.length post).
  replace (Z.min (Z.max 0 (Z.min 0 (Z.of_nat (n + S k))))
                 (Z.max 0 (Z.min (Z.of_nat n) (Z.of_nat (n + S k)))))
    with 0 by lia.
  replace (Z.max (Z.max 0 (Z.min 0 (Z.of_nat (n + S k))))
                 (Z.max 0 (Z.min (Z.of_nat n) (Z.of_nat (n + S k)))) - 0)
    with (Z.of_nat n) by lia.
  rewrite Nat2Z.id. cbn [Z.to_nat skipn]. subst n.
  rewrite firstn_app, firstn_all, Nat.sub_diag. cbn. apply app_nil_r.
Qed.

Lemma substring_after (pre post : jsstring) (c : N) :
  substring (pre ++ c :: post) (Z.of_nat (List.length pre) + 1)
            (Z.of_nat (List.length (pre ++ c :: post))) = post.
Proof.
  unfold substring, clamp. rewrite length_app. cbn [List.length].
  set (n := List.length pre). set (k := List.length post).
  replace (Z.min (Z.max 0 (Z.min (Z.of_nat n + 1) (Z.of_nat (n + S k))))
                 (Z.max 0 (Z.min (Z.of_nat (n + S k)) (Z.of_nat (n + S k)))))
    with (Z.of_nat (S n)) by lia.
  replace (Z.max (Z.max 0 (Z.min (Z.of_nat n + 1) (Z.of_nat (n + S k))))
                 (Z.max 0 (Z.min (Z.of_nat (n + S k)) (Z.of_nat (n + S k))))
           - Z.of_nat (S n))
    with (Z.of_nat k) by lia.
  rewrite !Nat2Z.id.
  replace (S n) with (List.length (pre ++ [c])) by (rewrite length_app; simpl; lia).
  replace (pre ++ c :: post) with ((pre ++ [c]) ++ post)
    by (rewrite <- app_assoc; reflexivity).
  rewrite skipn_app, skipn_all, Nat.sub_diag. cbn [skipn app].
  apply firstn_all.
Qed.

Lemma Array_indexOfFrom_found (arr : list jsstring) (x : jsstring) (i : Z) :
  0 <= i -> Array_indexOfFrom arr x i <> -1 <-> In x arr.
Proof.
  revert i; induction arr as [|y arr IH]; intros i Hi; simpl.
  - split; [congruence | tauto].
  - destruct (jsstring_eq_dec y x) as [->|Hne].
    + split; [now left | lia].
    + rewrite IH by lia. split; [now right | intros [H|H]; [congruence | exact H]].
Qed.

(** [arr.indexOf(x) !== -1] exactly when [x] is an element of [arr]. *)
Lemma Array_indexOf_found (arr : list jsstring) (x : jsstring) :
  Array_indexOf arr x <> -1 <-> In x arr.
Proof. apply Array_indexOfFrom_found; lia. Qed.

Lemma hasAlias_true (alias : jsstring) (cmd : Command) :
  hasAlias alias cmd = true <-> In alias (aliases cmd).
Proof.
  unfold hasAlias. rewrite negb_true_iff, Z.eqb_neq. apply Array_indexOf_found.
Qed.

Lemma hasAlias_false (alias : jsstring) (cmd : Command) :
  hasAlias alias cmd = false <-> ~ In alias (aliases cmd).
Proof.
  rewrite <- hasAlias_true. destruct (hasAlias alias cmd); split; congruence.
Qed.

(** The full-width space is replaced once, at its first occurrence. *)
Lemma normalize_first (pre post : jsstring) :
  ~ In IDEOGRAPHIC_SPACE pre ->
  normalize (pre ++ IDEOGRAPHIC_SPACE :: post) = pre ++ SPACE :: post.
Proof.
  intros H. unfold normalize, String_replace, String_indexOf.
  rewrite indexOfFrom_unit_first by exact H.
  destruct (Z.eqb_spec (0 + Z.of_nat (List.length pre)) (-1)) as [E|_]; [lia|].
  replace (Z.to_nat (0 + Z.of_nat (List.length pre))) with (List.length pre) by lia.
  rewrite firstn_app, firstn_all, Nat.sub_diag. cbn [firstn].
  rewrite app_nil_r. f_equal.
  replace (pre ++ IDEOGRAPHIC_SPACE :: post)
    with ((pre ++ [IDEOGRAPHIC_SPACE]) ++ post)
    by (rewrite <- app_assoc; reflexivity).
  replace (List.length pre + List.length [IDEOGRAPHIC_SPACE])%nat
    with (List.length (pre ++ [IDEOGRAPHIC_SPACE])) by apply length_app.
  rewrite skipn_app, skipn_all, Nat.sub_diag. reflexivity.
Qed.

Lemma normalize_none (text : jsstring) :
  ~ In IDEOGRAPHIC_SPACE text -> normalize text = text.
Proof.
  intros H. unfold normalize, String_replace, String_indexOf.
  rewrite indexOfFrom_unit_absent by exact H. reflexivity.
Qed.

(** ** The error handler *)

(** C8. An error without a public message whose message text contains
    "Missing Permissions", handled under a configuration that sets
    [missingPermissionsErrorMessage], is answered with that configured
    message; its log description is "Missing permissions" unless the error
    brings one of its own. *)
Theorem handleCommandError_missing_permissions
        (msg : Message) (config : Config) (isPublicError : bool)
        (logDescription publicMessage internalErr : jsval) (text : jsstring) :
  truthy publicMessage = false ->
  (exists pre post, text = pre ++ str "Missing Permissions" ++ post) ->
  truthy (missingPermissionsErrorMessage config) = true ->
  let err := JObject isPublicError logDescription publicMessage
                     (JString text) internalErr in
  let cause := if isPublicError then internalErr else err in
  handleCommandError msg err config =
  Normal
    ([CreateMessage (channel msg) (missingPermissionsErrorMessage config)]
     ++ [LogInputReaction (str "COMMAND") msg [] false
           (if truthy logDescription then logDescription
            else JString (str "Missing permissions"))]
     ++ (if truthy cause
         then [LogFailure (str "COMMAND") (failureText msg) cause]
         else [])).
Proof.
  intros Hpm Hin Hcfg err cause. subst err cause.
  apply String_indexOf_found in Hin. apply Z.eqb_neq in Hin.
  unfold handleCommandError.
  cbn [getProp bind call_indexOf instanceofPublicError].
  rewrite Hpm. cbn [negb bind]. rewrite Hin, Hcfg. cbn [negb andb bind].
  rewrite Hcfg. cbn [negb].
  destruct (truthy logDescription) eqn:Hld; cbn [negb]; rewrite ?Hld;
    destruct isPublicError; cbn [negb bind getProp]; rewrite ?Hcfg;
    reflexivity.
Qed.

Lemma handleCommandError_missing_permissions_witness :
  handleCommandError
    (message (str "}kick"))
    (JObject false JUndefined JUndefined
             (JString (str "DiscordRESTError [50013]: Missing Permissions"))
             JUndefined)
    exampleConfig
  = Normal
      [CreateMessage 7 (JString (str "no perms"));
       LogInputReaction (str "COMMAND") (message (str "}kick")) [] false
                        (JString (str "Missing permissions"));
       LogFailure (str "COMMAND") (failureText (message (str "}kick")))
         (JObject false JUndefined JUndefined
            (JString (str "DiscordRESTError [50013]: Missing Permissions"))
            JUndefined)].
Proof.
  apply (handleCommandError_missing_permissions
           (message (str "}kick")) exampleConfig false
           JUndefined JUndefined JUndefined
           (str "DiscordRESTError [50013]: Missing Permissions")).
  - reflexivity.
  - exists (str "DiscordRESTError [50013]: "), []. reflexivity.
  - reflexivity.
Defined.

(** The handler completes normally on every object that carries a public
    message or a message string. *)
Lemma handleCommandError_completes
      (msg : Message) (config : Config) (isPublicError : bool)
      (logDescription publicMessage message internalErr : jsval) :
  truthy publicMessage = true \/ (exists text, message = JString text) ->
  exists effects,
    handleCommandError msg
      (JObject isPublicError logDescription publicMessage message internalErr)
      config = Normal effects.
Proof.
  intros H. unfold handleCommandError.
  cbn [getProp bind instanceofPublicError].
  destruct (truthy publicMessage) eqn:Hpm; cbn [negb bind].
  - destruct isPublicError; cbn [bind]; eexists; reflexivity.
  - destruct H as [H|[text ->]]; [discriminate|].
    cbn [call_indexOf bind].
    destruct isPublicError; cbn [bind]; eexists; reflexivity.
Qed.

(** The effects of the error handler are sends and log entries only. *)
Lemma handleCommandError_effects
      (msg : Message) (err : jsval) (config : Config) (effects : list effect) :
  handleCommandError msg err config = Normal effects ->
  forall c msg' suffix config', ~ In (Handle c msg' suffix config') effects.
Proof.
  unfold handleCommandError.
  destruct (getProp err PLogDescription) as [ld|]; [|discriminate].
  destruct (getProp err PPublicMessage) as [pm|]; [|discriminate].
  cbn [bind].
  match goal with |- context [bind ?c _] => destruct c as [missing|] end;
    [|discriminate].
  cbn [bind].
  match goal with |- context [bind ?c _] => destruct c as [cause|] end;
    [|discriminate].
  cbn [bind].
  match goal with
  | |- context [if truthy ?v then [CreateMessage _ _] else _] =>
      destruct (truthy v)
  end;
    destruct (truthy cause);
    intros H c msg' suffix config' Hin; injection H as <-;
    simpl in Hin;
    repeat match type of Hin with
           | _ \/ _ => destruct Hin as [Hin|Hin]
           | _ = _ => discriminate Hin
           | False => exact Hin
           end.
Qed.

(** C2. A handler failure that carries no message is not contained: on
    the object [{}], on a thrown string and on [undefined] the error handler
    itself throws a [TypeError], which leaves [processInput] when the
    handler threw during the call and leaves the promise chain rejected when
    the handler's promise rejected. *)
Theorem handler_error_without_message_escapes :
  (forall msg config, handleCommandError msg plainObject config = ThrowTypeError)
  /\ (forall msg config text,
         handleCommandError msg (JString text) config = ThrowTypeError)
  /\ (forall msg config,
         handleCommandError msg JUndefined config = ThrowTypeError)
  /\ returned (processInput ascii_toLowerCase
                 (manager [pingCommand; throwingCommand])
                 (message (str "}throw now")) exampleConfig)
     = ThrowTypeError
  /\ deferred (processInput ascii_toLowerCase
                 (manager [pingCommand; rejectingCommand])
                 (message (str "}reject")) exampleConfig)
     = ThrowTypeError.
Proof. repeat split. Qed.

(** ** Dispatch *)

Lemma invoke_immediate (c : Command) (msg : Message) (suffix : jsstring)
      (config : Config) (c' : Command) (msg' : Message) (suffix' : jsstring)
      (config' : Config) :
  In (Handle c' msg' suffix' config') (immediate (invoke c msg suffix config)) ->
  c' = c /\ msg' = msg /\ suffix' = suffix /\ config' = config.
Proof.
  unfold invoke.
  destruct (handle c msg suffix config) as [err|result|err|].
  - destruct (handleCommandError msg err config) as [effects|] eqn:E;
      cbn [immediate]; intros [H|H].
    + injection H as <- <- <- <-. auto.
    + exfalso. eapply handleCommandError_effects; eassumption.
    + injection H as <- <- <- <-. auto.
    + destruct H.
  - intros [H|[]]. injection H as <- <- <- <-. auto.
  - intros [H|[]]. injection H as <- <- <- <-. auto.
  - intros [H|[]]. injection H as <- <- <- <-. auto.
Qed.

Lemma scanCommands_selects (commands : list Command) (msg : Message)
      (config : Config) (msgContent : jsstring) (spaceIndex : Z)
      (commandText : jsstring) (c : Command) :
  selects commands commandText c ->
  scanCommands commands msg config msgContent spaceIndex commandText
  = invoke c msg (suffixOf msgContent spaceIndex) config.
Proof.
  intros (before & after & -> & Hc & Hbefore).
  induction before as [|b before IH]; cbn [app scanCommands].
  - apply hasAlias_true in Hc. unfold hasAlias in Hc. now rewrite Hc.
  - assert (Hb : hasAlias commandText b = false)
      by (apply hasAlias_false, Hbefore; now left).
    unfold hasAlias in Hb. rewrite Hb.
    apply IH. intros c' Hin. apply Hbefore. now right.
Qed.

Lemma scanCommands_unmatched (commands : list Command) (msg : Message)
      (config : Config) (msgContent : jsstring) (spaceIndex : Z)
      (commandText : jsstring) :
  (forall c, In c commands -> ~ In commandText (aliases c)) ->
  scanCommands commands msg config msgContent spaceIndex commandText
  = {| immediate := []; returned := Normal false; deferred := Normal [] |}.
Proof.
  induction commands as [|b commands IH]; intros H; cbn [scanCommands].
  - reflexivity.
  - assert (Hb : hasAlias commandText b = false)
      by (apply hasAlias_false, H; now left).
    unfold hasAlias in Hb. rewrite Hb.
    apply IH. intros c Hin. apply H. now right.
Qed.

Lemma scanCommands_immediate (commands : list Command) (msg : Message)
      (config : Config) (msgContent : jsstring) (spaceIndex : Z)
      (commandText : jsstring) (c : Command) (msg' : Message)
      (suffix : jsstring) (config' : Config) :
  In (Handle c msg' suffix config')
     (immediate (scanCommands commands msg config msgContent spaceIndex
                              commandText)) ->
  In c commands /\ In commandText (aliases c)
  /\ suffix = suffixOf msgContent spaceIndex.
Proof.
  induction commands as [|b commands IH]; cbn [scanCommands].
  - intros [].
  - destruct (negb (Array_indexOf (aliases b) commandText =? -1)) eqn:E.
    + intros H. apply invoke_immediate in H. destruct H as (-> & _ & -> & _).
      repeat split; [now left | now apply hasAlias_true].
    + intros H. destruct (IH H) as (H1 & H2 & H3).
      repeat split; [now right | assumption | assumption].
Qed.

Section DispatchFacts.

Context {ReloadAction : Type}.
Variable toLowerCase : jsstring -> jsstring.

Lemma input_with_space (msg : Message) (pre post : jsstring) :
  normalize (content msg) = pre ++ SPACE :: post ->
  ~ In SPACE pre ->
  inputCommandText toLowerCase msg = toLowerCase pre
  /\ inputSuffix msg = trim post.
Proof.
  intros E H. unfold inputCommandText, inputSuffix, commandTextOf, suffixOf.
  cbv zeta. rewrite E. unfold String_indexOf.
  rewrite indexOfFrom_unit_first by exact H.
  destruct (Z.eqb_spec (0 + Z.of_nat (List.length pre)) (-1)) as [F|_]; [lia|].
  cbn [negb Z.add]. rewrite substring_before, substring_after. auto.
Qed.

Lemma input_without_space (msg : Message) :
  ~ In SPACE (normalize (content msg)) ->
  inputCommandText toLowerCase msg = toLowerCase (normalize (content msg))
  /\ inputSuffix msg = [].
Proof.
  intros H. unfold inputCommandText, inputSuffix, commandTextOf, suffixOf.
  cbv zeta. unfold String_indexOf.
  rewrite indexOfFrom_unit_absent by exact H. auto.
Qed.

(** C5. The message is normalized by replacing the (first) full-width
    space with a space and split at the first space: the part before it,
    lower-cased, is the command text, and the rest, trimmed, is the
    suffix; without a space the whole text is the command text and the
    suffix is empty.  These are the text a handler is selected by and the
    suffix it is called with. *)
Theorem processInput_splits_at_first_space (msg : Message) :
  (~ In IDEOGRAPHIC_SPACE (content msg) ->
   normalize (content msg) = content msg)
  /\ (forall pre post,
         content msg = pre ++ IDEOGRAPHIC_SPACE :: post ->
         ~ In IDEOGRAPHIC_SPACE pre ->
         normalize (content msg) = pre ++ SPACE :: post)
  /\ (forall pre post,
         normalize (content msg) = pre ++ SPACE :: post ->
         ~ In SPACE pre ->
         inputCommandText toLowerCase msg = toLowerCase pre
         /\ inputSuffix msg = trim post)
  /\ (~ In SPACE (normalize (content msg)) ->
      inputCommandText toLowerCase msg
      = toLowerCase (normalize (content msg))
      /\ inputSuffix msg = [])
  /\ (forall (m : CommandManager ReloadAction) config c msg' suffix config',
         In (Handle c msg' suffix config')
            (immediate (processInput toLowerCase m msg config)) ->
         In (inputCommandText toLowerCase msg) (aliases c)
         /\ suffix = inputSuffix msg)
  /\ (lowercases_ascii toLowerCase ->
      content msg = str "}echo" ++ [IDEOGRAPHIC_SPACE] ++ str "hello" ->
      inputCommandText toLowerCase msg = str "}echo"
      /\ inputSuffix msg = str "hello").
Proof.
  split; [apply normalize_none|].
  split; [intros pre post -> H; now apply normalize_first|].
  split; [apply input_with_space|].
  split; [apply input_without_space|].
  split.
  - intros m config c msg' suffix config' H.
    unfold processInput in H. cbv zeta in H.
    apply scanCommands_immediate in H. tauto.
  - intros Hlower E.
    destruct (input_with_space msg (str "}echo") (str "hello")) as [H1 H2].
    + rewrite E. reflexivity.
    + cbv. intuition discriminate.
    + rewrite H1, H2. split; [|reflexivity].
      rewrite Hlower; [reflexivity|].
      repeat constructor.
Qed.

(** C6. The command text is the lower-cased candidate, and the registry
    is scanned in registration order: the first command whose alias array
    contains the command text is the one invoked.  An input "}PING"
    reaches the command registered under "}ping". *)
Theorem processInput_first_match
        (m : CommandManager ReloadAction) (msg : Message) (config : Config) :
  (forall c,
      selects (commands_ m) (inputCommandText toLowerCase msg) c ->
      processInput toLowerCase m msg config
      = invoke c msg (inputSuffix msg) config)
  /\ (forall candidate,
         (normalize (content msg) = candidate
          \/ exists rest, normalize (content msg) = candidate ++ SPACE :: rest) ->
         ~ In SPACE candidate ->
         inputCommandText toLowerCase msg = toLowerCase candidate)
  /\ (lowercases_ascii toLowerCase ->
      content msg = str "}PING" ->
      forall c,
        selects (commands_ m) (str "}ping") c ->
        processInput toLowerCase m msg config = invoke c msg [] config).
Proof.
  split; [|split].
  - intros c H. unfold processInput. cbv zeta.
    now apply scanCommands_selects.
  - intros candidate [E|[rest E]] H.
    + rewrite <- E in H. rewrite <- E. now apply input_without_space.
    + now apply (input_with_space msg candidate rest).
  - intros Hlower E c H.
    assert (Hn : normalize (content msg) = str "}PING")
      by (rewrite E; reflexivity).
    destruct (input_without_space msg) as [H1 H2].
    { rewrite Hn. cbv. intuition discriminate. }
    unfold processInput. cbv zeta.
    fold (inputCommandText toLowerCase msg).
    rewrite (scanCommands_selects _ _ _ _ _ _ c).
    + fold (inputSuffix msg). now rewrite H2.
    + rewrite H1, Hn, Hlower by (repeat constructor). exact H.
Qed.

(** C9. Input whose command text is no registered alias is not claimed:
    [processInput] returns false, no handler is called, nothing is logged
    and nothing is sent, then or later. *)
Theorem processInput_unmatched
        (m : CommandManager ReloadAction) (msg : Message) (config : Config) :
  (forall c, In c (commands_ m) ->
             ~ In (inputCommandText toLowerCase msg) (aliases c)) ->
  processInput toLowerCase m msg config
  = {| immediate := []; returned := Normal false; deferred := Normal [] |}.
Proof.
  intros H. unfold processInput. cbv zeta.
  now apply scanCommands_unmatched.
Qed.

(** C10. When the handler of the matched command resolves, exactly one
    input reaction is logged, once the result is known; its success flag
    is true exactly when the result is not a string, and a string result
    is logged as the description of an unsuccessful reaction. *)
Theorem processInput_logs_resolved_result
        (m : CommandManager ReloadAction) (msg : Message) (config : Config)
        (c : Command) (result : jsval) :
  selects (commands_ m) (inputCommandText toLowerCase msg) c ->
  handle c msg (inputSuffix msg) config = Resolves result ->
  processInput toLowerCase m msg config
  = {| immediate := [Handle c msg (inputSuffix msg) config];
       returned := Normal true;
       deferred :=
         Normal [LogInputReaction (str "COMMAND") msg []
                                  (negb (isString result)) result] |}
  /\ (negb (isString result) = true <-> forall s, result <> JString s)
  /\ (forall s, result = JString s ->
                deferred (processInput toLowerCase m msg config)
                = Normal [LogInputReaction (str "COMMAND") msg [] false
                                           (JString s)]).
Proof.
  intros Hsel Hres.
  assert (E : processInput toLowerCase m msg config
              = invoke c msg (inputSuffix msg) config).
  { unfold processInput. cbv zeta. now apply scanCommands_selects. }
  rewrite E. unfold invoke. rewrite Hres.
  split; [reflexivity|]. split.
  - destruct result; cbn; split; try congruence; try discriminate.
  - intros s ->. reflexivity.
Qed.

End DispatchFacts.

Lemma processInput_splits_at_first_space_witness :
  inputCommandText ascii_toLowerCase
    (message (str "}echo" ++ [IDEOGRAPHIC_SPACE] ++ str "hello")) = str "}echo"
  /\ inputSuffix (message (str "}echo" ++ [IDEOGRAPHIC_SPACE] ++ str "hello"))
     = str "hello".
Proof.
  destruct (processInput_splits_at_first_space (ReloadAction := unit)
              ascii_toLowerCase
              (message (str "}echo" ++ [IDEOGRAPHIC_SPACE] ++ str "hello")))
    as (_ & _ & _ & _ & _ & H).
  apply H.
  - intros s _. reflexivity.
  - reflexivity.
Defined.

Lemma processInput_first_match_witness :
  processInput ascii_toLowerCase (manager [echoCommand; pingCommand])
               (message (str "}PING")) exampleConfig
  = invoke pingCommand (message (str "}PING")) [] exampleConfig.
Proof.
  destruct (processInput_first_match ascii_toLowerCase
              (manager [echoCommand; pingCommand])
              (message (str "}PING")) exampleConfig) as (_ & _ & H).
  apply H.
  - intros s _. reflexivity.
  - reflexivity.
  - exists [echoCommand], []. split; [reflexivity|]. split.
    + left. reflexivity.
    + intros c [<-|[]]. cbv. intuition discriminate.
Defined.

Lemma processInput_unmatched_witness :
  processInput ascii_toLowerCase (manager [pingCommand; echoCommand])
               (message (str "}nope hi")) exampleConfig
  = {| immediate := []; returned := Normal false; deferred := Normal [] |}.
Proof.
  apply (processInput_unmatched ascii_toLowerCase
           (manager [pingCommand; echoCommand])
           (message (str "}nope hi")) exampleConfig).
  intros c [<-|[<-|[]]]; vm_compute; intuition discriminate.
Defined.

Lemma processInput_logs_resolved_result_witness :
  deferred (processInput ascii_toLowerCase (manager [echoCommand; pingCommand])
                         (message (str "}Ping me")) exampleConfig)
  = Normal [LogInputReaction (str "COMMAND") (message (str "}Ping me")) []
                             false (JString (str "pong"))].
Proof.
  destruct (processInput_logs_resolved_result ascii_toLowerCase
              (manager [echoCommand; pingCommand])
              (message (str "}Ping me")) exampleConfig
              pingCommand (JString (str "pong"))) as (_ & _ & H).
  - exists [echoCommand], []. split; [reflexivity|]. split.
    + left. reflexivity.
    + intros c [<-|[]]. vm_compute. intuition discriminate.
  - reflexivity.
  - apply (H (str "pong")). reflexivity.
Defined.

(** ** The alias scan *)

Lemma find_hasAlias_some (alias : jsstring) (others : list Command) :
  (exists r, find (hasAlias alias) others = Some r)
  <-> exists r, In r others /\ In alias (aliases r).
Proof.
  split.
  - intros [r H]. apply find_some in H. exists r.
    split; [tauto | apply hasAlias_true; tauto].
  - intros (r & Hin & Ha).
    destruct (find (hasAlias alias) others) as [r'|] eqn:E; [now exists r'|].
    apply hasAlias_true in Ha.
    rewrite (find_none _ _ E r Hin) in Ha. discriminate.
Qed.

Lemma find_hasAlias_none (alias : jsstring) (others : list Command) :
  find (hasAlias alias) others = None
  <-> forall r, In r others -> ~ In alias (aliases r).
Proof.
  split.
  - intros E r Hin. apply hasAlias_false. exact (find_none _ _ E r Hin).
  - intros H. destruct (find (hasAlias alias) others) as [r|] eqn:E; [|reflexivity].
    apply find_some in E. destruct E as [Hin Ha].
    apply hasAlias_true in Ha. now destruct (H r Hin).
Qed.

(** The scan returns the first alias of the list that is, as a string,
    an alias of one of the other commands. *)
Lemma duplicateAmong_some (aliasList : list jsstring) (others : list Command)
      (alias : jsstring) :
  duplicateAmong aliasList others = Some alias
  <-> exists before after,
      aliasList = before ++ alias :: after
      /\ (exists r, In r others /\ In alias (aliases r))
      /\ forall a, In a before -> forall r, In r others -> ~ In a (aliases r).
Proof.
  induction aliasList as [|x aliasList IH]; cbn [duplicateAmong].
  - split; [discriminate|].
    intros (before & after & H & _). destruct before; discriminate.
  - destruct (find (hasAlias x) others) as [r|] eqn:E.
    + assert (Hx : exists r, In r others /\ In x (aliases r))
        by (apply find_hasAlias_some; now exists r).
      split.
      * intros H. injection H as <-. exists [], aliasList.
        split; [reflexivity|]. split; [exact Hx|]. intros a [].
      * intros (before & after & H & _ & Hb).
        destruct before as [|b before].
        -- injection H as -> _. reflexivity.
        -- injection H as <- _. destruct Hx as (r' & Hin & Ha).
           destruct (Hb x (or_introl eq_refl) r' Hin Ha).
    + rewrite IH. split.
      * intros (before & after & -> & Hr & Hb).
        exists (x :: before), after. split; [reflexivity|]. split; [exact Hr|].
        intros a [<-|Ha]; [now apply find_hasAlias_none | now apply Hb].
      * intros (before & after & H & Hr & Hb).
        destruct before as [|b before].
        -- injection H as <- _. destruct Hr as (r & Hin & Ha).
           destruct (proj1 (find_hasAlias_none x others) E r Hin Ha).
        -- injection H as _ ->. exists before, after.
           split; [reflexivity|]. split; [exact Hr|].
           intros a Ha. apply Hb. now right.
Qed.

Lemma duplicateAmong_none (aliasList : list jsstring) (others : list Command) :
  duplicateAmong aliasList others = None
  <-> forall a r, In a aliasList -> In r others -> ~ In a (aliases r).
Proof.
  induction aliasList as [|x aliasList IH]; cbn [duplicateAmong].
  - split; [intros _ a r [] | reflexivity].
  - destruct (find (hasAlias x) others) as [r|] eqn:E.
    + split; [discriminate|]. intros H.
      apply find_some in E. destruct E as [Hin Ha].
      apply hasAlias_true in Ha.
      destruct (H x r (or_introl eq_refl) Hin Ha).
    + rewrite IH. split.
      * intros H a r [<-|Ha] Hin;
          [now apply (proj1 (find_hasAlias_none _ others) E) | now apply H].
      * intros H a r Ha. apply H. now right.
Qed.

(** The collision scan compares aliases as strings: the result is the
    candidate's first alias that is identical to an alias of a registered
    command, and nothing when there is none. *)
Lemma getDuplicateAlias_exact_match
        (candidate : Command) (registered : list Command) :
  (forall alias,
      getDuplicateAlias candidate registered = Some alias
      <-> exists before after,
        aliases candidate = before ++ alias :: after
        /\ (exists r, In r registered /\ In alias (aliases r))
        /\ forall a, In a before ->
                     forall r, In r registered -> ~ In a (aliases r))
  /\ (getDuplicateAlias candidate registered = None
      <-> forall a r, In a (aliases candidate) -> In r registered ->
                      ~ In a (aliases r))
  /\ (forall toLowerCase : jsstring -> jsstring,
         (forall a, In a (aliases candidate) -> toLowerCase a = a) ->
         (forall r a, In r registered -> In a (aliases r) -> toLowerCase a = a) ->
         (exists a r b,
             In a (aliases candidate) /\ In r registered /\ In b (aliases r)
             /\ toLowerCase a = toLowerCase b) ->
         getDuplicateAlias candidate registered <> None).
Proof.
  split; [intros alias; apply duplicateAmong_some|].
  split; [apply duplicateAmong_none|].
  intros toLowerCase Hc Hr (a & r & b & Ha & Hin & Hb & E) HNone.
  rewrite (Hc a Ha), (Hr r b Hin Hb) in E. subst b.
  unfold getDuplicateAlias in HNone.
  exact (proj1 (duplicateAmong_none _ _) HNone a r Ha Hin Hb).
Qed.



(** ** Loading *)

Section LoadFacts.

Context {ReloadAction SettingsManager : Type}.
Variable construct : jsstring -> Command + jsval.
Variables AllowCommand UnrestrictCommand BanCommand : list Command -> Command.
Variable SettingsCommand : SettingsManager -> Config -> Command.
Variable ReloadCommand : ReloadAction -> Command.

Local Abbreviation loadFrom :=
  (load ReloadAction SettingsManager construct
        AllowCommand UnrestrictCommand BanCommand
        SettingsCommand ReloadCommand).
Local Abbreviation builtIns :=
  (builtInCommands ReloadAction SettingsManager
                   AllowCommand UnrestrictCommand BanCommand
                   SettingsCommand ReloadCommand).

Lemma loadCommandFiles_app (files more : list jsstring)
      (s : list Command * list effect) :
  loadCommandFiles construct (files ++ more) s
  = loadCommandFiles construct more (loadCommandFiles construct files s).
Proof.
  revert s; induction files as [|f files IH]; intros s; cbn; [reflexivity|].
  apply IH.
Qed.

(** A turn of the loop never removes a registered command. *)
Lemma loadCommandFile_keeps (f : jsstring) (s : list Command * list effect)
      (c : Command) :
  In c (fst s) -> In c (fst (loadCommandFile construct f s)).
Proof.
  destruct s as [commands log]. unfold loadCommandFile. cbn [fst].
  destruct (construct f) as [command|e]; [|auto].
  destruct (uniqueIdTaken command commands); [auto|].
  destruct (truthyAlias (getDuplicateAlias command commands)); [auto|].
  cbn [fst]. intros H. apply in_or_app. now left.
Qed.

Lemma loadCommandFiles_keeps (files : list jsstring)
      (s : list Command * list effect) (c : Command) :
  In c (fst s) -> In c (fst (loadCommandFiles construct files s)).
Proof.
  revert s; induction files as [|f files IH]; intros s H; cbn; [exact H|].
  apply IH. now apply loadCommandFile_keeps.
Qed.

(** C1 (as the code has it). [load] empties the registry before the
    directory is read.  When the enumeration fails, the failure is logged
    and the registry stays empty, the settings tree being left as it was;
    when it succeeds, the registry is the commands loaded from the files
    followed by the built-in ones. *)
Theorem load_clears_registry_first
        (m : CommandManager ReloadAction) (settingsManager : SettingsManager)
        (config : Config) :
  commands_ (loadBegin m) = []
  /\ (forall err,
         loadFrom m settingsManager config (EnumerationFailed err)
         = ({| commands_ := [];
               settingsCategory_ := settingsCategory_ m;
               reloadAction_ := reloadAction_ m |},
            [LogFailure (str "COMMAND MANAGER")
                        (str "Error loading commands.") err]))
  /\ (forall commandFiles,
         let userCommands :=
           fst (loadCommandFiles construct commandFiles ([], [])) in
         commands_ (fst (loadFrom m settingsManager config (Listed commandFiles)))
         = userCommands
           ++ builtIns m settingsManager config userCommands).
Proof.
  split; [reflexivity|]. split; [reflexivity|].
  intros commandFiles.
  unfold load, loadSettle. cbn [loadBegin commands_].
  destruct (loadCommandFiles construct commandFiles ([], []))
    as [userCommands log].
  reflexivity.
Qed.

(** C7. After a load the settings tree is the category "commands" with
    one boolean setting per command loaded from the files, in
    registration order, named after the command's first alias followed by
    "_enabled" and defaulting to true; the built-in commands, appended to
    the registry afterwards, have none. *)
Theorem load_settings_category
        (m : CommandManager ReloadAction) (settingsManager : SettingsManager)
        (config : Config) (commandFiles : list jsstring) :
  let userCommands :=
    fst (loadCommandFiles construct commandFiles ([], [])) in
  let m' := fst (loadFrom m settingsManager config (Listed commandFiles)) in
  commands_ m'
  = userCommands ++ builtIns m settingsManager config userCommands
  /\ settingsCategory_ m'
     = Some (createSettingsCategoryForCommands userCommands)
  /\ exists children,
      createSettingsCategoryForCommands userCommands
      = CATEGORY (str "commands") children
      /\ List.length children = List.length userCommands
      /\ forall i c,
          nth_error userCommands i = Some c ->
          (exists description,
              nth_error children i
              = Some (SETTING (firstAliasText c ++ str "_enabled")
                              description (str "BOOLEAN") (JBoolean true)))
          /\ forall alias more,
              aliases c = alias :: more -> firstAliasText c = alias.
Proof.
  intros userCommands m'. subst userCommands m'.
  unfold load, loadSettle. cbn [loadBegin commands_].
  destruct (loadCommandFiles construct commandFiles ([], []))
    as [userCommands log].
  cbn [fst commands_ settingsCategory_].
  split; [reflexivity|]. split; [reflexivity|].
  exists (createSettingsHierarchyForCommands userCommands).
  split; [reflexivity|].
  split; [apply length_map|].
  intros i c Hc. split.
  - eexists. unfold createSettingsHierarchyForCommands.
    rewrite nth_error_map, Hc. reflexivity.
  - intros alias more E. unfold firstAliasText. now rewrite E.
Qed.

Lemma uniqueIdTaken_true (command r : Command) (commands : list Command)
      (id : jsstring) :
  uniqueId command = Some id ->
  id <> [] ->
  In r commands ->
  uniqueId r = Some id ->
  uniqueIdTaken command commands = true.
Proof.
  intros Hc Hne Hin Hr. unfold uniqueIdTaken. rewrite Hc.
  destruct id as [|u id]; [congruence|].
  match goal with
  | |- match find ?p commands with _ => _ end = _ =>
      destruct (find p commands) as [x|] eqn:F; [reflexivity|];
        pose proof (find_none _ _ F r Hin) as N
  end.
  cbv beta in N. rewrite Hr in N.
  destruct (jsstring_eq_dec (u :: id) (u :: id)); [discriminate | congruence].
Qed.

(** C3 (as the code has it). Of two definitions that share an alias, the
    first having been registered at its turn, the later one is skipped when
    its turn comes: the registry is left as it is, one failure naming the
    later file is logged, and the loop goes on with the files that follow.
    The failure is the unique-id one when the later definition repeats the
    non-empty unique id of a registered command; otherwise, none of its
    aliases being the empty string, it is the alias one and names the first
    of its aliases, in their order, that a registered command lists. *)
Theorem load_skips_duplicate_alias
        (before between after : list jsstring) (first later : jsstring)
        (c1 c2 : Command) (alias : jsstring) :
  construct first = inl c1 ->
  construct later = inl c2 ->
  In alias (aliases c1) ->
  In alias (aliases c2) ->
  let s1 := loadCommandFiles construct before ([], []) in
  let s2 := loadCommandFiles construct (before ++ first :: between) ([], []) in
  fst (loadCommandFile construct first s1) = fst s1 ++ [c1] ->
  In c1 (fst s2)
  /\ (forall id r,
         uniqueId c2 = Some id -> id <> [] ->
         In r (fst s2) -> uniqueId r = Some id ->
         loadCommandFile construct later s2
         = (fst s2, snd s2 ++ [duplicateIdFailure later id])
         /\ loadCommandFiles construct
              (before ++ first :: between ++ later :: after) ([], [])
            = loadCommandFiles construct after
                (fst s2, snd s2 ++ [duplicateIdFailure later id]))
  /\ (uniqueIdTaken c2 (fst s2) = false ->
      Forall (fun a => a <> []) (aliases c2) ->
      exists duplicate pre post,
        aliases c2 = pre ++ duplicate :: post
        /\ (exists r, In r (fst s2) /\ In duplicate (aliases r))
        /\ (forall a, In a pre ->
                      forall r, In r (fst s2) -> ~ In a (aliases r))
        /\ loadCommandFile construct later s2
           = (fst s2, snd s2 ++ [duplicateAliasFailure later duplicate])
        /\ loadCommandFiles construct
             (before ++ first :: between ++ later :: after) ([], [])
           = loadCommandFiles construct after
               (fst s2, snd s2 ++ [duplicateAliasFailure later duplicate])).
Proof.
  intros H1 H2 Ha1 Ha2 s1 s2 Hreg.
  assert (Hc1 : In c1 (fst s2)).
  { subst s2. rewrite loadCommandFiles_app. cbn [loadCommandFiles].
    apply loadCommandFiles_keeps. fold s1. rewrite Hreg.
    apply in_or_app. right. now left. }
  assert (Hgo : forall entry,
             loadCommandFile construct later s2 = (fst s2, snd s2 ++ [entry]) ->
             loadCommandFiles construct
               (before ++ first :: between ++ later :: after) ([], [])
             = loadCommandFiles construct after (fst s2, snd s2 ++ [entry])).
  { intros entry Hstep.
    replace (before ++ first :: between ++ later :: after)
      with ((before ++ first :: between) ++ later :: after)
      by (rewrite <- app_assoc; reflexivity).
    rewrite loadCommandFiles_app. fold s2. cbn [loadCommandFiles].
    now rewrite Hstep. }
  split; [exact Hc1|]. split.
  - intros id r Hid Hne Hr Hrid.
    assert (Hstep : loadCommandFile construct later s2
                    = (fst s2, snd s2 ++ [duplicateIdFailure later id])).
    { pose proof (uniqueIdTaken_true c2 r (fst s2) id Hid Hne Hr Hrid) as T.
      destruct s2 as [commands log]. cbn [fst snd] in *.
      unfold loadCommandFile. rewrite H2, T.
      unfold uniqueIdText. rewrite Hid. reflexivity. }
    split; [exact Hstep | exact (Hgo _ Hstep)].
  - intros Hid Hne.
    destruct (getDuplicateAlias c2 (fst s2)) as [duplicate|] eqn:E.
    2:{ exfalso.
        exact (proj1 (duplicateAmong_none _ _) E alias c1 Ha2 Hc1 Ha1). }
    pose proof (proj1 (duplicateAmong_some _ _ _) E)
      as (pre & post & Hsplit & Hr & Hpre).
    assert (Hin : In duplicate (aliases c2))
      by (rewrite Hsplit; apply in_or_app; right; now left).
    assert (Hstep : loadCommandFile construct later s2
                    = (fst s2,
                       snd s2 ++ [duplicateAliasFailure later duplicate])).
    { destruct s2 as [commands log]. cbn [fst snd] in *.
      unfold loadCommandFile. rewrite H2, Hid, E.
      destruct duplicate as [|u duplicate]; [|reflexivity].
      rewrite Forall_forall in Hne. now destruct (Hne [] Hin). }
    exists duplicate, pre, post.
    split; [exact Hsplit|]. split; [exact Hr|]. split; [exact Hpre|].
    split; [exact Hstep | exact (Hgo _ Hstep)].
Qed.

End LoadFacts.

Lemma load_skips_duplicate_alias_witness :
  loadCommandFiles exampleConstruct
    [str "ping.js"; str "a3.js"; str "broken.js"; str "a2.js"; str "Ping.js"]
    ([], [])
  = loadCommandFiles exampleConstruct [str "Ping.js"]
      ([pingCommand; thirdA],
       [LogFailure managerTitle
          (FailedToLoadMessageStart ++ str "broken.js") plainObject;
        duplicateAliasFailure (str "a2.js") (str "}a")])
  /\ loadCommandFiles exampleConstruct
       [str "a1.js"; str "a2.js"; str "ping.js"] ([], [])
     = loadCommandFiles exampleConstruct [str "ping.js"]
         ([firstA], [duplicateIdFailure (str "a2.js") (str "x")]).
Proof.
  assert (Ha1 : In (str "}a") (aliases thirdA)) by (simpl; auto).
  assert (Ha2 : In (str "}a") (aliases secondA)) by (simpl; auto).
  assert (Ha3 : In (str "}a") (aliases firstA)) by (simpl; auto).
  assert (Hne : Forall (fun a : jsstring => a <> []) (aliases secondA))
    by (repeat constructor; discriminate).
  split.
  - destruct (load_skips_duplicate_alias exampleConstruct
                [str "ping.js"] [str "broken.js"] [str "Ping.js"]
                (str "a3.js") (str "a2.js") thirdA secondA (str "}a")
                eq_refl eq_refl Ha1 Ha2 eq_refl)
      as (_ & _ & H).
    destruct (H eq_refl Hne)
      as (duplicate & pre & post & Hsplit & _ & Hpre & _ & Hall).
    destruct pre as [|x pre].
    + injection Hsplit as <- _. exact Hall.
    + exfalso. injection Hsplit as <- _.
      apply (Hpre (str "}a") (or_introl eq_refl) thirdA);
        simpl; auto.
  - destruct (load_skips_duplicate_alias exampleConstruct
                [] [] [str "ping.js"]
                (str "a1.js") (str "a2.js") firstA secondA (str "}a")
                eq_refl eq_refl Ha3 Ha2 eq_refl)
      as (_ & H & _).
    destruct (H (str "x") firstA eq_refl ltac:(discriminate)
                (or_introl eq_refl) eq_refl) as [_ Hall].
    exact Hall.
Defined.

(** Two loads at which the later of a pair sharing an alias is not skipped
    for the alias.  When the pair also shares a unique id, the later one is
    skipped for the id and no alias failure is logged.  When the first of
    the pair was itself rejected, the later one is registered. *)
Lemma shared_alias_and_id_logs_id_failure :
  ~ (forall (construct : jsstring -> Command + jsval) first later c1 c2 alias,
        construct first = inl c1 ->
        construct later = inl c2 ->
        In alias (aliases c1) ->
        In alias (aliases c2) ->
        exists duplicate,
          In (duplicateAliasFailure later duplicate)
             (snd (loadCommandFiles construct [first; later] ([], []))))
  /\ ~ (forall (construct : jsstring -> Command + jsval)
               before first between later c1 c2 alias,
           construct first = inl c1 ->
           construct later = inl c2 ->
           In alias (aliases c1) ->
           In alias (aliases c2) ->
           let s2 :=
             loadCommandFiles construct (before ++ first :: between) ([], []) in
           fst (loadCommandFile construct later s2) = fst s2).
Proof.
  split.
  - intros H.
    destruct (H exampleConstruct (str "a1.js") (str "a2.js") firstA secondA
                (str "}a")) as [duplicate Hin];
      try reflexivity; try (simpl; auto; fail).
    vm_compute in Hin. destruct Hin as [Hin|[]]. discriminate Hin.
  - intros H.
    assert (E := H collidingConstruct [str "a1.js"] (str "a2.js") []
                   (str "b.js") secondA onlyB (str "}b")
                   eq_refl eq_refl
                   (or_intror (or_introl eq_refl)) (or_introl eq_refl)).
    vm_compute in E. discriminate E.
Qed.

(** A failed enumeration leaves the registry empty, not as it was. *)
Lemma load_failure_discards_registry :
  ~ (forall (m : CommandManager unit) err,
        commands_ (fst (exampleLoad m tt exampleConfig (EnumerationFailed err)))
        = commands_ m).
Proof.
  intros H. specialize (H (manager [pingCommand]) JUndefined).
  discriminate H.
Qed.

(** ** What the loading loop keeps *)

Lemma snoc_split {A : Type} (l pre post : list A) (x y : A) :
  l ++ [x] = pre ++ y :: post ->
  (post = [] /\ pre = l /\ y = x)
  \/ exists post', post = post' ++ [x] /\ l = pre ++ y :: post'.
Proof.
  destruct (exists_last (l := y :: post)) as (front & z & E); [discriminate|].
  rewrite E, app_assoc. intros H. apply app_inj_tail in H. destruct H as [H ->].
  destruct post as [|p post].
  - left. cbn in E. destruct front as [|a [|b front]]; try discriminate.
    injection E as ->. rewrite app_nil_r in H. auto.
  - right. destruct (exists_last (l := p :: post)) as (post' & z' & E');
      [discriminate|].
    rewrite E' in E. exists post'.
    change (y :: post' ++ [z']) with ((y :: post') ++ [z']) in E.
    apply app_inj_tail in E. destruct E as [<- <-].
    split; [exact E' | exact H].
Qed.

Section LoadInvariants.

Variable construct : jsstring -> Command + jsval.

Lemma loadCommandFile_cases (f : jsstring) (commands : list Command)
      (log : list effect) :
  (exists description cause,
      loadCommandFile construct f (commands, log)
      = (commands, log ++ [LogFailure managerTitle description cause]))
  \/ (exists command,
         construct f = inl command
         /\ uniqueIdTaken command commands = false
         /\ truthyAlias (getDuplicateAlias command commands) = false
         /\ loadCommandFile construct f (commands, log)
            = (commands ++ [command], log)).
Proof.
  unfold loadCommandFile.
  destruct (construct f) as [command|e]; [|left; eauto].
  destruct (uniqueIdTaken command commands) eqn:Hid; [left; eauto|].
  destruct (truthyAlias (getDuplicateAlias command commands)) eqn:Hal;
    [left; eauto|].
  right. exists command. auto.
Qed.

Lemma loadCommandFiles_Loaded (files : list jsstring)
      (commands : list Command) (log : list effect) :
  Loaded commands ->
  Loaded (fst (loadCommandFiles construct files (commands, log))).
Proof.
  revert commands log; induction files as [|f files IH];
    intros commands log H; cbn [loadCommandFiles]; [exact H|].
  destruct (loadCommandFile_cases f commands log)
    as [(d & cause & ->)|(command & _ & Hid & Hal & ->)].
  - now apply IH.
  - apply IH. now constructor.
Qed.

Lemma loadCommandFiles_accounting (files : list jsstring)
      (commands : list Command) (log : list effect) :
  let result := loadCommandFiles construct files (commands, log) in
  (List.length (fst result) + List.length (snd result)
   = List.length commands + List.length log + List.length files)%nat
  /\ (Forall managerFailure log -> Forall managerFailure (snd result))
  /\ forall command,
      In command (fst result) ->
      In command commands
      \/ exists f, In f files /\ construct f = inl command.
Proof.
  revert commands log.
  induction files as [|f files' IH]; intros commands log; cbv zeta.
  - cbn [loadCommandFiles fst snd List.length].
    split; [lia|]. split; [auto|]. intros c H. now left.
  - cbn [loadCommandFiles List.length].
    destruct (loadCommandFile_cases f commands log)
      as [(d & cause & ->)|(command & Hc & _ & _ & ->)].
    + destruct (IH commands (log ++ [LogFailure managerTitle d cause]))
        as (L1 & L2 & L3). cbv zeta in L1, L2, L3.
      rewrite length_app in L1. cbn [List.length] in L1.
      split; [lia|]. split.
      * intros Hlog. apply L2. apply Forall_app. split; [exact Hlog|].
        constructor; [unfold managerFailure; eauto | constructor].
      * intros c Hin. destruct (L3 c Hin) as [H|(f' & Hf & E)]; [now left|].
        right. exists f'. split; [now right | exact E].
    + destruct (IH (commands ++ [command]) log) as (L1 & L2 & L3).
      cbv zeta in L1, L2, L3.
      rewrite length_app in L1. cbn [List.length] in L1.
      split; [lia|]. split; [exact L2|].
      intros c Hin. destruct (L3 c Hin) as [H|(f' & Hf & E)].
      * apply in_app_or in H. destruct H as [H|[<-|[]]]; [now left|].
        right. exists f. split; [now left | exact Hc].
      * right. exists f'. split; [now right | exact E].
Qed.

(** X1. Every command file is accounted for once: it is either pushed to
    the registry or answered with one failure entry of the manager, and the
    loop logs nothing else; a registered command is what one of the files
    constructed. *)
Theorem load_accounts_for_every_file (files : list jsstring) :
  let result := loadCommandFiles construct files ([], []) in
  (List.length (fst result) + List.length (snd result) = List.length files)%nat
  /\ Forall (fun entry =>
               exists description cause,
                 entry = LogFailure managerTitle description cause)
            (snd result)
  /\ forall command,
      In command (fst result) ->
      exists f, In f files /\ construct f = inl command.
Proof.
  cbv zeta.
  destruct (loadCommandFiles_accounting files [] []) as (G1 & G2 & G3).
  cbv zeta in G1, G2, G3.
  split; [cbn in G1; lia|]. split; [apply G2; constructor|].
  intros command Hin. destruct (G3 command Hin) as [[]|H]. exact H.
Qed.

Lemma Loaded_split (commands pre post : list Command) (c : Command) :
  Loaded commands ->
  commands = pre ++ c :: post ->
  uniqueIdTaken c pre = false
  /\ truthyAlias (getDuplicateAlias c pre) = false.
Proof.
  intros H. revert pre post.
  induction H as [|commands command H IH Hid Hal]; intros pre post E.
  - destruct pre; discriminate.
  - apply snoc_split in E.
    destruct E as [(-> & -> & ->)|(post' & -> & E)]; [auto|].
    now apply (IH pre post').
Qed.

(** X2. No two registered commands share a unique id: when a command with
    a non-empty unique id is in the registry, none of the commands
    registered before it has that id. *)
Theorem load_keeps_unique_ids_distinct
        (files : list jsstring) (pre post : list Command) (c r : Command)
        (id : jsstring) :
  fst (loadCommandFiles construct files ([], [])) = pre ++ c :: post ->
  uniqueId c = Some id ->
  id <> [] ->
  In r pre ->
  uniqueId r <> Some id.
Proof.
  intros E Hc Hid Hr Heq.
  destruct (Loaded_split _ pre post c
              (loadCommandFiles_Loaded files [] [] Loaded_nil) E) as [H _].
  unfold uniqueIdTaken in H. rewrite Hc in H.
  destruct id as [|u id]; [congruence|].
  match type of H with
  | match find ?p pre with _ => _ end = _ =>
      destruct (find p pre) as [x|] eqn:F; [discriminate|];
        pose proof (find_none _ _ F r Hr) as N
  end.
  cbv beta in N. rewrite Heq in N.
  destruct (jsstring_eq_dec (u :: id) (u :: id)); [discriminate | congruence].
Qed.

(** X3. No two registered commands share an alias, as long as no alias
    of a loaded command is the empty string: an alias of a registered
    command is an alias of none of the commands registered before it. *)
Theorem load_keeps_aliases_distinct
        (files : list jsstring) (pre post : list Command) (c r : Command)
        (alias : jsstring) :
  (forall f command, construct f = inl command ->
                     Forall (fun a => a <> []) (aliases command)) ->
  fst (loadCommandFiles construct files ([], [])) = pre ++ c :: post ->
  In alias (aliases c) ->
  In r pre ->
  ~ In alias (aliases r).
Proof.
  intros Hne E Ha Hr Hin.
  destruct (Loaded_split _ pre post c
              (loadCommandFiles_Loaded files [] [] Loaded_nil) E) as [_ H].
  destruct (getDuplicateAlias c pre) as [duplicate|] eqn:D.
  - destruct duplicate as [|u duplicate]; [|discriminate].
    apply duplicateAmong_some in D.
    destruct D as (before & after & Hsplit & _ & _).
    destruct (loadCommandFiles_accounting files [] []) as (_ & _ & Hfrom).
    destruct (Hfrom c) as [[]|(f & _ & Hf)].
    { rewrite E. apply in_or_app. right. now left. }
    pose proof (Hne f c Hf) as Hall. rewrite Forall_forall in Hall.
    apply (Hall []); [|reflexivity].
    rewrite Hsplit. apply in_or_app. right. now left.
  - exact (proj1 (duplicateAmong_none _ _) D alias r Ha Hr Hin).
Qed.

(** X4. Definitions that do not collide are all registered, in the order
    of the files, and nothing is logged: it is enough that every file
    constructs a command, that no command repeats the non-empty unique id of
    an earlier one, and that no command lists an alias of an earlier one. *)
Theorem load_registers_compatible_definitions
        (files : list jsstring) (definitions : list Command) :
  Forall2 (fun f command => construct f = inl command) files definitions ->
  (forall pre c post,
      definitions = pre ++ c :: post ->
      uniqueIdTaken c pre = false
      /\ forall a r, In a (aliases c) -> In r pre -> ~ In a (aliases r)) ->
  loadCommandFiles construct files ([], []) = (definitions, []).
Proof.
  intros HF Hok.
  assert (G : forall registered log,
             (forall pre c post,
                 definitions = pre ++ c :: post ->
                 uniqueIdTaken c (registered ++ pre) = false
                 /\ getDuplicateAlias c (registered ++ pre) = None) ->
             loadCommandFiles construct files (registered, log)
             = (registered ++ definitions, log)).
  { clear Hok. induction HF as [|f command files definitions Hf HF IH];
      intros registered log Hok; cbn [loadCommandFiles].
    - now rewrite app_nil_r.
    - destruct (Hok [] command definitions eq_refl) as [Hid Hal].
      rewrite app_nil_r in Hid, Hal.
      unfold loadCommandFile. rewrite Hf, Hid, Hal. cbn [truthyAlias].
      rewrite IH.
      + now rewrite <- app_assoc.
      + intros pre c post ->. rewrite <- app_assoc.
        apply (Hok (command :: pre) c post). reflexivity. }
  apply (G [] []). intros pre c post E. cbn [app].
  destruct (Hok pre c post E) as [Hid Hal]. split; [exact Hid|].
  apply duplicateAmong_none. exact Hal.
Qed.

End LoadInvariants.

Lemma exampleConstruct_aliases (f : jsstring) (command : Command) :
  exampleConstruct f = inl command ->
  Forall (fun a : jsstring => a <> []) (aliases command)
  /\ aliases command <> [].
Proof.
  unfold exampleConstruct.
  repeat match goal with
         | |- context [jsstring_eq_dec ?a ?b] => destruct (jsstring_eq_dec a b)
         end;
    intros H; try discriminate H; injection H as <-;
    (split; [repeat constructor; discriminate | discriminate]).
Qed.

Lemma load_keeps_unique_ids_distinct_witness :
  uniqueId pingCommand <> Some (str "x").
Proof.
  apply (load_keeps_unique_ids_distinct exampleConstruct
           [str "ping.js"; str "a1.js"; str "a2.js"]
           [pingCommand] [] firstA pingCommand (str "x")).
  - reflexivity.
  - reflexivity.
  - discriminate.
  - left. reflexivity.
Defined.

Lemma load_keeps_aliases_distinct_witness :
  ~ In (str "}a") (aliases pingCommand).
Proof.
  apply (load_keeps_aliases_distinct exampleConstruct
           [str "ping.js"; str "a1.js"; str "a3.js"]
           [pingCommand] [] firstA pingCommand (str "}a")).
  - intros f command H. exact (proj1 (exampleConstruct_aliases f command H)).
  - reflexivity.
  - left. reflexivity.
  - left. reflexivity.
Defined.

Lemma load_registers_compatible_definitions_witness :
  loadCommandFiles exampleConstruct [str "ping.js"; str "a1.js"] ([], [])
  = ([pingCommand; firstA], []).
Proof.
  apply (load_registers_compatible_definitions exampleConstruct
           [str "ping.js"; str "a1.js"] [pingCommand; firstA]).
  - repeat constructor.
  - intros pre c post E.
    destruct pre as [|x [|y [|z pre]]]; try discriminate E.
    + injection E as <- <-. split; [reflexivity | intros a r _ []].
    + injection E as <- <- <-. split; [reflexivity|].
      intros a r [<-|[]] [<-|[]]. cbv. intuition discriminate.
Defined.

(** ** Loading, then dispatching *)

Lemma falsy_scan_disjoint (c : Command) (pre : list Command) :
  truthyAlias (getDuplicateAlias c pre) = false ->
  Forall (fun a => a <> []) (aliases c) ->
  forall a r, In a (aliases c) -> In r pre -> ~ In a (aliases r).
Proof.
  intros H Hne a r Ha Hr Hin.
  destruct (getDuplicateAlias c pre) as [duplicate|] eqn:D.
  - destruct duplicate as [|u duplicate]; [|discriminate].
    apply duplicateAmong_some in D.
    destruct D as (before & after & Hsplit & _ & _).
    rewrite Forall_forall in Hne. apply (Hne []); [|reflexivity].
    rewrite Hsplit. apply in_or_app. right. now left.
  - exact (proj1 (duplicateAmong_none _ _) D a r Ha Hr Hin).
Qed.

Lemma firstAliasText_In (c : Command) :
  aliases c <> [] -> In (firstAliasText c) (aliases c).
Proof.
  unfold firstAliasText. destruct (aliases c); [congruence | now left].
Qed.

Lemma Loaded_setting_names (commands : list Command) :
  Loaded commands ->
  (forall c, In c commands ->
             aliases c <> [] /\ Forall (fun a => a <> []) (aliases c)) ->
  NoDup (map (fun c => firstAliasText c ++ str "_enabled") commands).
Proof.
  induction 1 as [|commands command H IH Hid Hal]; intros Hok.
  - constructor.
  - rewrite map_app. apply NoDup_app.
    + apply IH. intros c Hc. apply Hok. apply in_or_app. now left.
    + cbn. constructor; [intros [] | constructor].
    + intros name Hname [E|[]]. apply in_map_iff in Hname.
      destruct Hname as (r & Hr & Hin). rewrite <- Hr in E.
      apply app_inv_tail in E.
      destruct (Hok command) as [Hne Hall];
        [apply in_or_app; right; now left|].
      destruct (Hok r) as [Hner _]; [apply in_or_app; now left|].
      apply (falsy_scan_disjoint command commands Hal Hall
               (firstAliasText command) r).
      * now apply firstAliasText_In.
      * exact Hin.
      * rewrite E. now apply firstAliasText_In.
Qed.

Section LoadThenDispatch.

Context {ReloadAction SettingsManager : Type}.
Variable construct : jsstring -> Command + jsval.
Variables AllowCommand UnrestrictCommand BanCommand : list Command -> Command.
Variable SettingsCommand : SettingsManager -> Config -> Command.
Variable ReloadCommand : ReloadAction -> Command.
Variable toLowerCase : jsstring -> jsstring.

Local Abbreviation loadFrom :=
  (load ReloadAction SettingsManager construct
        AllowCommand UnrestrictCommand BanCommand
        SettingsCommand ReloadCommand).
Local Abbreviation builtIns :=
  (builtInCommands ReloadAction SettingsManager
                   AllowCommand UnrestrictCommand BanCommand
                   SettingsCommand ReloadCommand).

Lemma load_listed (m : CommandManager ReloadAction)
      (settingsManager : SettingsManager) (config : Config)
      (files : list jsstring) :
  let result := loadCommandFiles construct files ([], []) in
  loadFrom m settingsManager config (Listed files)
  = ({| commands_ :=
          fst result ++ builtIns m settingsManager config (fst result);
        settingsCategory_ :=
          Some (createSettingsCategoryForCommands (fst result));
        reloadAction_ := reloadAction_ m |},
     snd result).
Proof.
  cbv zeta. unfold load, loadSettle. cbn [loadBegin commands_].
  destruct (loadCommandFiles construct files ([], [])) as [users log].
  reflexivity.
Qed.

(** X5. After a load, a message whose command text is an alias of a
    command loaded from the files is handed to that command: no other
    loaded command and no built-in command, even one listing the same alias,
    takes it (no alias of a loaded command being the empty string). *)
Theorem load_then_dispatch_reaches_command
        (m : CommandManager ReloadAction) (settingsManager : SettingsManager)
        (loadConfig config : Config) (files : list jsstring)
        (msg : Message) (c : Command) :
  (forall f command, construct f = inl command ->
                     Forall (fun a => a <> []) (aliases command)) ->
  In c (fst (loadCommandFiles construct files ([], []))) ->
  In (inputCommandText toLowerCase msg) (aliases c) ->
  processInput toLowerCase
    (fst (loadFrom m settingsManager loadConfig (Listed files))) msg config
  = invoke c msg (inputSuffix msg) config.
Proof.
  intros Hne Hc Ha. rewrite load_listed. cbn [fst].
  unfold processInput. cbv zeta. cbn [commands_].
  apply scanCommands_selects.
  destruct (in_split _ _ Hc) as (pre & post & E).
  exists pre, (post ++ builtIns m settingsManager loadConfig
                         (fst (loadCommandFiles construct files ([], [])))).
  split; [rewrite E at 1; rewrite <- app_assoc; reflexivity|].
  split; [exact Ha|].
  intros r Hr.
  destruct (Loaded_split _ pre post c
              (loadCommandFiles_Loaded construct files [] [] Loaded_nil) E)
    as [_ H].
  destruct (loadCommandFiles_accounting construct files [] [])
    as (_ & _ & Hfrom).
  destruct (Hfrom c Hc) as [[]|(f & _ & Hf)].
  exact (falsy_scan_disjoint c pre H (Hne f c Hf) _ r Ha Hr).
Qed.

(** X6. The names of the settings built by a load are pairwise distinct,
    provided every loaded command has an alias and none of them is the
    empty string. *)
Theorem load_setting_names_distinct
        (m : CommandManager ReloadAction) (settingsManager : SettingsManager)
        (config : Config) (files : list jsstring)
        (name : jsstring) (children : list SettingsNode) :
  (forall f command, construct f = inl command ->
                     aliases command <> []
                     /\ Forall (fun a => a <> []) (aliases command)) ->
  settingsCategory_ (fst (loadFrom m settingsManager config (Listed files)))
  = Some (CATEGORY name children) ->
  NoDup (map settingName children).
Proof.
  intros Hok E. rewrite load_listed in E. cbn [fst settingsCategory_] in E.
  injection E as _ <-.
  unfold createSettingsHierarchyForCommands. rewrite map_map.
  cbn [createSettingsHierarchyForCommand settingName].
  apply Loaded_setting_names.
  - apply loadCommandFiles_Loaded. constructor.
  - intros c Hc.
    destruct (loadCommandFiles_accounting construct files [] [])
      as (_ & _ & Hfrom).
    destruct (Hfrom c Hc) as [[]|(f & _ & Hf)]. exact (Hok f c Hf).
Qed.

(** X7. A load does not depend on what the manager held before: two
    managers with the same reload action end up equal and log the same, so
    loading the same listing again changes nothing. *)
Theorem load_is_independent_of_previous_state
        (m m' : CommandManager ReloadAction) (settingsManager : SettingsManager)
        (config : Config) (files : list jsstring) :
  reloadAction_ m = reloadAction_ m' ->
  loadFrom m settingsManager config (Listed files)
  = loadFrom m' settingsManager config (Listed files)
  /\ loadFrom (fst (loadFrom m settingsManager config (Listed files)))
              settingsManager config (Listed files)
     = loadFrom m settingsManager config (Listed files).
Proof.
  intros E. rewrite !load_listed. cbn [fst reloadAction_].
  unfold builtInCommands. cbn [reloadAction_]. rewrite E. auto.
Qed.

(** X8. A reload whose enumeration fails leaves a manager that claims no
    input at all, while [collectSettingsCategories] still returns the
    category of the commands loaded before. *)
Theorem failed_reload_keeps_settings_only
        (m : CommandManager ReloadAction) (settingsManager : SettingsManager)
        (loadConfig config : Config) (files : list jsstring) (err : jsval)
        (msg : Message) :
  let loaded := fst (loadFrom m settingsManager loadConfig (Listed files)) in
  let failed :=
    fst (loadFrom loaded settingsManager loadConfig (EnumerationFailed err)) in
  processInput toLowerCase failed msg config = unclaimed
  /\ processInput toLowerCase (loadBegin loaded) msg config = unclaimed
  /\ collectSettingsCategories failed
     = [Some (createSettingsCategoryForCommands
                (fst (loadCommandFiles construct files ([], []))))].
Proof.
  cbv zeta. rewrite load_listed. cbn [fst]. repeat split.
Qed.

End LoadThenDispatch.

(** ** More on the error handler *)

(** X9. For an error whose message is not an object (it is [undefined],
    [null], a boolean, a number or a string), the error handler throws
    exactly on [undefined], on [null], and on a value that has no truthy
    public message while its message is not a string; in every other case
    it completes. *)
Theorem handleCommandError_throws_iff
        (msg : Message) (err : jsval) (config : Config) :
  messageIsNoObject err ->
  handleCommandError msg err config = ThrowTypeError
  <-> err = JUndefined \/ err = JNull
      \/ exists publicMessage message,
          getProp err PPublicMessage = Normal publicMessage
          /\ getProp err PMessage = Normal message
          /\ truthy publicMessage = false
          /\ isString message = false.
Proof.
  intros _.
  destruct err as [| |b|z|s|isPublicError ld pm m ie].
  - split; auto.
  - split; auto.
  - split; [intros _|reflexivity].
    right; right. exists JUndefined, JUndefined. auto.
  - split; [intros _|reflexivity].
    right; right. exists JUndefined, JUndefined. auto.
  - split; [intros _|reflexivity].
    right; right. exists JUndefined, JUndefined. auto.
  - destruct (truthy pm) eqn:Hpm.
    + destruct (handleCommandError_completes msg config isPublicError ld pm m ie
                  (or_introl Hpm)) as [effects ->].
      split; [discriminate|].
      intros [H|[H|(pm' & m' & H1 & _ & H3 & _)]]; try discriminate.
      cbn in H1. injection H1 as <-. congruence.
    + destruct (isString m) eqn:Hm.
      * destruct m; try discriminate.
        destruct (handleCommandError_completes msg config isPublicError ld pm
                    (JString s) ie (or_intror (ex_intro _ s eq_refl)))
          as [effects ->].
        split; [discriminate|].
        intros [H|[H|(pm' & m' & _ & H2 & _ & H4)]]; try discriminate.
        cbn in H2. injection H2 as <-. discriminate.
      * split.
        -- intros _. right; right. exists pm, m. auto.
        -- intros _. unfold handleCommandError.
           cbn [getProp bind]. rewrite Hpm. cbn [negb bind].
           destruct m; try discriminate; reflexivity.
Qed.

(** X10. Whenever the error handler completes, it has written exactly one
    input reaction, unsuccessful and with a truthy description, preceded by
    at most one message to the channel (never a falsy text) and followed by
    at most one failure entry (never without a cause). *)
Theorem handleCommandError_shape
        (msg : Message) (err : jsval) (config : Config)
        (effects : list effect) :
  handleCommandError msg err config = Normal effects ->
  exists sends description failures,
    effects
    = sends ++ [LogInputReaction (str "COMMAND") msg [] false description]
      ++ failures
    /\ truthy description = true
    /\ (sends = []
        \/ exists text,
            sends = [CreateMessage (channel msg) text] /\ truthy text = true)
    /\ (failures = []
        \/ exists cause,
            failures = [LogFailure (str "COMMAND") (failureText msg) cause]
            /\ truthy cause = true).
Proof.
  unfold handleCommandError.
  destruct (getProp err PLogDescription) as [ld|]; [|discriminate].
  destruct (getProp err PPublicMessage) as [pm|]; [|discriminate].
  cbn [bind].
  match goal with |- context [bind ?c _] => destruct c as [missing|] end;
    [|discriminate].
  cbn [bind].
  match goal with |- context [bind ?c _] => destruct c as [cause|] end;
    [|discriminate].
  cbn [bind]. cbv zeta. intros H.
  match type of H with
  | Normal (?A ++ [LogInputReaction _ _ _ _ ?D] ++ ?B) = _ =>
      injection H as <-; exists A, D, B
  end.
  split; [reflexivity|]. split; [|split].
  - match goal with
    | |- truthy (if negb (truthy ?x) then _ else _) = true =>
        destruct (truthy x) eqn:E; [exact E | reflexivity]
    end.
  - match goal with
    | |- (if truthy ?x then _ else _) = [] \/ _ =>
        destruct (truthy x) eqn:E; [right; exists x; auto | now left]
    end.
  - destruct (truthy cause) eqn:E; [right; exists cause; auto | now left].
Qed.

(** X11. A truthy public message on the error wins: it is what is sent,
    whatever the configuration holds and whether or not the error has a
    message; the description logged is the error's own, or "Exception or
    promise rejection" when it has none. *)
Theorem handleCommandError_public_message_first
        (msg : Message) (config : Config) (isPublicError : bool)
        (logDescription publicMessage message internalErr : jsval) :
  truthy publicMessage = true ->
  let err := JObject isPublicError logDescription publicMessage
                     message internalErr in
  let cause := if isPublicError then internalErr else err in
  handleCommandError msg err config =
  Normal
    ([CreateMessage (channel msg) publicMessage]
     ++ [LogInputReaction (str "COMMAND") msg [] false
           (if truthy logDescription then logDescription
            else JString (str "Exception or promise rejection"))]
     ++ (if truthy cause
         then [LogFailure (str "COMMAND") (failureText msg) cause]
         else [])).
Proof.
  intros Hpm err cause. subst err cause. unfold handleCommandError.
  cbn [getProp bind instanceofPublicError]. rewrite Hpm. cbn [negb bind].
  destruct (truthy logDescription) eqn:Hld; destruct isPublicError;
    cbn [negb bind getProp]; rewrite ?Hpm, ?Hld; cbn [negb];
    rewrite ?Hpm; reflexivity.
Qed.

(** X12. An error with a message string and no public message, which is
    not a permissions failure the configuration has a message for, is
    answered with the generic error message, or with nothing when that is
    not set; the description defaults to "Exception or promise rejection". *)
Theorem handleCommandError_generic_fallback
        (msg : Message) (config : Config) (isPublicError : bool)
        (logDescription publicMessage internalErr : jsval) (text : jsstring) :
  truthy publicMessage = false ->
  (forall pre post, text <> pre ++ str "Missing Permissions" ++ post)
  \/ truthy (missingPermissionsErrorMessage config) = false ->
  let err := JObject isPublicError logDescription publicMessage
                     (JString text) internalErr in
  let cause := if isPublicError then internalErr else err in
  handleCommandError msg err config =
  Normal
    ((if truthy (genericErrorMessage config)
      then [CreateMessage (channel msg) (genericErrorMessage config)]
      else [])
     ++ [LogInputReaction (str "COMMAND") msg [] false
           (if truthy logDescription then logDescription
            else JString (str "Exception or promise rejection"))]
     ++ (if truthy cause
         then [LogFailure (str "COMMAND") (failureText msg) cause]
         else [])).
Proof.
  intros Hpm Hno err cause. subst err cause. unfold handleCommandError.
  cbn [getProp bind call_indexOf instanceofPublicError].
  rewrite Hpm. cbn [negb bind].
  assert (E : negb (String_indexOf text (str "Missing Permissions") =? -1)
              && truthy (missingPermissionsErrorMessage config) = false).
  { destruct Hno as [Hno|Hno].
    - destruct (Z.eqb_spec (String_indexOf text (str "Missing Permissions"))
                           (-1)) as [_|Hne]; [reflexivity|].
      apply String_indexOf_found in Hne. destruct Hne as (pre & post & Hs).
      now destruct (Hno pre post).
    - rewrite Hno. apply andb_false_r. }
  rewrite E.
  destruct (truthy logDescription) eqn:Hld; destruct isPublicError;
    cbn [negb bind getProp]; rewrite ?Hpm, ?Hld; cbn [negb];
    rewrite ?Hpm; reflexivity.
Qed.

Lemma handleCommandError_throws_iff_witness :
  handleCommandError (message (str "}x")) (JNumber 404) exampleConfig
  = ThrowTypeError.
Proof.
  apply (proj2 (handleCommandError_throws_iff
                  (message (str "}x")) (JNumber 404) exampleConfig I)).
  right; right. exists JUndefined, JUndefined. repeat split.
Defined.

Lemma handleCommandError_shape_witness :
  exists sends description failures,
    [CreateMessage 7 (JString (str "Not found"));
     LogInputReaction (str "COMMAND") (message (str "}x")) [] false
                      (JString (str "Exception or promise rejection"))]
    = sends ++ [LogInputReaction (str "COMMAND") (message (str "}x")) [] false
                                 description] ++ failures
    /\ truthy description = true.
Proof.
  destruct (handleCommandError_shape
              (message (str "}x"))
              (JObject true JUndefined (JString (str "Not found"))
                       JUndefined JUndefined)
              exampleConfig
              [CreateMessage 7 (JString (str "Not found"));
               LogInputReaction (str "COMMAND") (message (str "}x")) [] false
                                (JString (str "Exception or promise rejection"))]
              eq_refl)
    as (sends & description & failures & H1 & H2 & _).
  exists sends, description, failures. split; assumption.
Defined.

Lemma handleCommandError_public_message_first_witness :
  handleCommandError (message (str "}x"))
    (JObject true (JString (str "No heapdump module"))
             (JString (str "Module not found")) JUndefined JUndefined)
    exampleConfig
  = Normal [CreateMessage 7 (JString (str "Module not found"));
            LogInputReaction (str "COMMAND") (message (str "}x")) [] false
                             (JString (str "No heapdump module"))].
Proof.
  apply (handleCommandError_public_message_first
           (message (str "}x")) exampleConfig true
           (JString (str "No heapdump module"))
           (JString (str "Module not found")) JUndefined JUndefined).
  reflexivity.
Defined.

Lemma handleCommandError_generic_fallback_witness :
  handleCommandError (message (str "}x"))
    (JObject false JUndefined JUndefined (JString []) JUndefined)
    {| missingPermissionsErrorMessage := JUndefined;
       genericErrorMessage := JString (str "Oops") |}
  = Normal [CreateMessage 7 (JString (str "Oops"));
            LogInputReaction (str "COMMAND") (message (str "}x")) [] false
                             (JString (str "Exception or promise rejection"));
            LogFailure (str "COMMAND") (failureText (message (str "}x")))
              (JObject false JUndefined JUndefined (JString []) JUndefined)].
Proof.
  apply (handleCommandError_generic_fallback
           (message (str "}x"))
           {| missingPermissionsErrorMessage := JUndefined;
              genericErrorMessage := JString (str "Oops") |}
           false JUndefined JUndefined JUndefined []).
  - reflexivity.
  - right. reflexivity.
Defined.

(** ** More on dispatch *)

Lemma scan_cases (commands : list Command) (commandText : jsstring) :
  (forall c, In c commands -> ~ In commandText (aliases c))
  \/ exists c, selects commands commandText c.
Proof.
  induction commands as [|b commands IH].
  - left. intros c [].
  - destruct (hasAlias commandText b) eqn:E.
    + right. exists b, [], commands. split; [reflexivity|].
      split; [now apply hasAlias_true | intros c []].
    + destruct IH as [IH|(c & before & after & -> & Hc & Hb)].
      * left. intros c [<-|Hin]; [now apply hasAlias_false | now apply IH].
      * right. exists c, (b :: before), after. split; [reflexivity|].
        split; [exact Hc|].
        intros r [<-|Hin]; [now apply hasAlias_false | now apply Hb].
Qed.

Lemma invoke_shape (c : Command) (msg : Message) (suffix : jsstring)
      (config : Config) :
  returned (invoke c msg suffix config) <> Normal false
  /\ exists rest,
      immediate (invoke c msg suffix config)
      = Handle c msg suffix config :: rest
      /\ forall c' msg' suffix' config',
          ~ In (Handle c' msg' suffix' config') rest.
Proof.
  unfold invoke.
  destruct (handle c msg suffix config) as [err|result|err|].
  - destruct (handleCommandError msg err config) as [effects|] eqn:E;
      cbn [returned immediate].
    + split; [discriminate|]. exists effects. split; [reflexivity|].
      now apply (handleCommandError_effects msg err config).
    + split; [discriminate|]. exists []. split; [reflexivity | intros ? ? ? ? []].
  - split; [discriminate|]. exists []. split; [reflexivity | intros ? ? ? ? []].
  - split; [discriminate|]. exists []. split; [reflexivity | intros ? ? ? ? []].
  - split; [discriminate|]. exists []. split; [reflexivity | intros ? ? ? ? []].
Qed.

Lemma trimStart_split (s : jsstring) :
  exists ws, s = ws ++ trimStart s /\ Forall (fun c => isWhiteSpace c = true) ws.
Proof.
  induction s as [|c s (ws & E & H)]; cbn [trimStart].
  - exists []. auto.
  - destruct (isWhiteSpace c) eqn:W.
    + exists (c :: ws). split; [cbn; now rewrite <- E | now constructor].
    + exists []. auto.
Qed.

Lemma trimStart_head (s rest : jsstring) (c : N) :
  trimStart s = c :: rest -> isWhiteSpace c = false.
Proof.
  induction s as [|x s IH]; cbn [trimStart]; [discriminate|].
  destruct (isWhiteSpace x) eqn:W; [exact IH|].
  intros H. injection H as <- _. exact W.
Qed.

Lemma trimEnd_split (s : jsstring) :
  exists ws, s = trimEnd s ++ ws /\ Forall (fun c => isWhiteSpace c = true) ws.
Proof.
  unfold trimEnd. destruct (trimStart_split (rev s)) as (ws & E & H).
  exists (rev ws). split; [|now apply Forall_rev].
  rewrite <- rev_app_distr, <- E. symmetry. apply rev_involutive.
Qed.

Lemma trimEnd_last (s front : jsstring) (c : N) :
  trimEnd s = front ++ [c] -> isWhiteSpace c = false.
Proof.
  unfold trimEnd. intros H.
  apply (f_equal (@rev N)) in H. rewrite rev_involutive, rev_unit in H.
  exact (trimStart_head _ _ _ H).
Qed.

(** What [trim] returns: the text without the white space at its two ends. *)
Lemma trim_spec (s : jsstring) :
  (exists before after,
      s = before ++ trim s ++ after
      /\ Forall (fun c => isWhiteSpace c = true) before
      /\ Forall (fun c => isWhiteSpace c = true) after)
  /\ (forall c rest, trim s = c :: rest -> isWhiteSpace c = false)
  /\ (forall front c, trim s = front ++ [c] -> isWhiteSpace c = false).
Proof.
  unfold trim.
  destruct (trimStart_split s) as (before & E1 & H1).
  destruct (trimEnd_split (trimStart s)) as (after & E2 & H2).
  split; [|split].
  - exists before, after. split; [|auto]. now rewrite <- E2.
  - intros c rest E. rewrite E in E2. apply (trimStart_head s (rest ++ after)).
    exact E2.
  - intros front c. apply trimEnd_last.
Qed.

Lemma substring_infix (s : jsstring) (a b : Z) :
  exists before after, s = before ++ substring s a b ++ after.
Proof.
  unfold substring. cbv zeta.
  match goal with
  | |- exists _ _, _ = _ ++ firstn ?n (skipn ?k s) ++ _ =>
      exists (firstn k s), (skipn n (skipn k s))
  end.
  now rewrite firstn_skipn, firstn_skipn.
Qed.

Lemma isAscii_firstn (n : nat) (s : jsstring) : isAscii s -> isAscii (firstn n s).
Proof.
  unfold isAscii. revert n; induction s as [|c s IH]; intros [|n] H; cbn;
    try constructor; inversion H; subst; auto.
Qed.

Lemma isAscii_skipn (n : nat) (s : jsstring) : isAscii s -> isAscii (skipn n s).
Proof.
  unfold isAscii. revert n; induction s as [|c s IH]; intros [|n] H; cbn;
    try assumption; inversion H; subst; auto.
Qed.

Lemma lower_unit_not_upper (c : N) : isUpperUnit (lower_unit c) = false.
Proof.
  unfold isUpperUnit, lower_unit.
  destruct ((65 <=? c) && (c <=? 90))%N eqn:E.
  - apply andb_true_iff in E. destruct E as [E1 E2].
    apply N.leb_le in E1. apply N.leb_le in E2.
    apply andb_false_iff. right. apply N.leb_gt. lia.
  - exact E.
Qed.

Section MoreDispatchFacts.

Context {ReloadAction : Type}.
Variable toLowerCase : jsstring -> jsstring.

(** X13. [processInput] returns false exactly when no registered command
    lists the command text, and it then does nothing, at once or later.
    When some registered command lists the text, it does not return false,
    and one handler is called, once, before anything else happens: that of
    the first command listing the text. *)
Theorem processInput_claims_iff_alias_registered
        (m : CommandManager ReloadAction) (msg : Message) (config : Config) :
  let commandText := inputCommandText toLowerCase msg in
  let outcome := processInput toLowerCase m msg config in
  (returned outcome = Normal false
   <-> forall c, In c (commands_ m) -> ~ In commandText (aliases c))
  /\ ((forall c, In c (commands_ m) -> ~ In commandText (aliases c)) ->
      immediate outcome = [] /\ deferred outcome = Normal [])
  /\ (forall listing,
         In listing (commands_ m) -> In commandText (aliases listing) ->
         returned outcome <> Normal false
         /\ exists c rest,
             selects (commands_ m) commandText c
             /\ immediate outcome
                = Handle c msg (inputSuffix msg) config :: rest
             /\ forall c' msg' suffix' config',
                 ~ In (Handle c' msg' suffix' config') rest).
Proof.
  cbv zeta. unfold processInput. cbv zeta.
  fold (inputCommandText toLowerCase msg).
  destruct (scan_cases (commands_ m) (inputCommandText toLowerCase msg))
    as [Hnone|(c & Hsel)].
  - rewrite scanCommands_unmatched by exact Hnone.
    cbn [returned immediate deferred].
    split; [tauto|]. split; [auto|].
    intros listing Hin Ha. now destruct (Hnone listing Hin).
  - rewrite (scanCommands_selects _ _ _ _ _ _ c Hsel).
    fold (inputSuffix msg).
    destruct (invoke_shape c msg (inputSuffix msg) config)
      as (Hret & rest & Him & Hrest).
    assert (Hc : exists listing,
               In listing (commands_ m)
               /\ In (inputCommandText toLowerCase msg) (aliases listing)).
    { destruct Hsel as (before & after & E & Ha & _). exists c.
      split; [rewrite E; apply in_or_app; right; now left | exact Ha]. }
    destruct Hc as (listing & Hl & Hla).
    split; [|split].
    + split; [intros H; now destruct Hret|].
      intros Hnone. now destruct (Hnone listing Hl).
    + intros Hnone. now destruct (Hnone listing Hl).
    + intros _ _ _. split; [exact Hret|]. exists c, rest. auto.
Qed.

(** X14. The suffix handed to a handler is a piece of the normalized
    message, and it neither starts nor ends with white space (the
    full-width space included). *)
Theorem inputSuffix_is_trimmed (msg : Message) :
  (exists before after,
      normalize (content msg) = before ++ inputSuffix msg ++ after)
  /\ (forall c rest, inputSuffix msg = c :: rest -> isWhiteSpace c = false)
  /\ (forall front c, inputSuffix msg = front ++ [c] -> isWhiteSpace c = false).
Proof.
  unfold inputSuffix, suffixOf. cbv zeta.
  set (text := normalize (content msg)).
  destruct (Z.eqb_spec (String_indexOf text [SPACE]) (-1)) as [E|E];
    cbn [negb].
  - split; [exists [], text; reflexivity|].
    split; [discriminate | intros [|? ?] c H; discriminate H].
  - set (rest := substring text (String_indexOf text [SPACE] + 1)
                           (Z.of_nat (List.length text))).
    destruct (trim_spec rest) as ((before & after & Hs & _ & _) & Hh & Hl).
    split; [|split; assumption].
    destruct (substring_infix text (String_indexOf text [SPACE] + 1)
                              (Z.of_nat (List.length text)))
      as (left & right & Ht).
    fold rest in Ht. exists (left ++ before), (after ++ right).
    rewrite Ht at 1. rewrite Hs at 1. now rewrite <- !app_assoc.
Qed.

(** X15. On an ASCII message, a command is only ever reached through an
    alias without upper-case letters: a command whose every alias contains
    one of [A]..[Z] is never called. *)
Theorem uppercase_alias_is_never_matched
        (m : CommandManager ReloadAction) (msg : Message) (config : Config)
        (c : Command) (msg' : Message) (suffix : jsstring) (config' : Config) :
  lowercases_ascii toLowerCase ->
  isAscii (content msg) ->
  (forall alias, In alias (aliases c) ->
                 exists u, In u alias /\ isUpperUnit u = true) ->
  ~ In (Handle c msg' suffix config')
       (immediate (processInput toLowerCase m msg config)).
Proof.
  intros Hlower Hascii Hupper Hin.
  unfold processInput in Hin. cbv zeta in Hin.
  apply scanCommands_immediate in Hin. destruct Hin as (_ & Halias & _).
  destruct (Hupper _ Halias) as (u & Hu & Hup).
  assert (Hn : normalize (content msg) = content msg).
  { apply normalize_none. intros H. unfold isAscii in Hascii.
    rewrite Forall_forall in Hascii. specialize (Hascii _ H).
    unfold IDEOGRAPHIC_SPACE in Hascii. lia. }
  unfold commandTextOf in Hu. rewrite Hn in Hu.
  rewrite Hlower in Hu.
  - unfold ascii_toLowerCase in Hu. apply in_map_iff in Hu.
    destruct Hu as (x & <- & _). rewrite lower_unit_not_upper in Hup.
    discriminate.
  - destruct (String_indexOf (content msg) [SPACE] =? -1); [exact Hascii|].
    unfold substring. apply isAscii_firstn, isAscii_skipn, Hascii.
Qed.

End MoreDispatchFacts.

Lemma uppercase_alias_is_never_matched_witness :
  ~ In (Handle mixedCasePing (message (str "}Ping")) [] exampleConfig)
       (immediate (processInput ascii_toLowerCase
                                (manager [mixedCasePing])
                                (message (str "}Ping")) exampleConfig)).
Proof.
  apply (uppercase_alias_is_never_matched ascii_toLowerCase
           (manager [mixedCasePing]) (message (str "}Ping")) exampleConfig
           mixedCasePing (message (str "}Ping")) [] exampleConfig).
  - intros s _. reflexivity.
  - repeat constructor.
  - intros alias [<-|[]]. exists 80%N. split; [simpl; auto | reflexivity].
Defined.

Lemma load_then_dispatch_reaches_command_witness :
  processInput ascii_toLowerCase
    (fst (exampleLoad (manager [echoCommand]) tt exampleConfig
            (Listed [str "ping.js"; str "a1.js"; str "a3.js"])))
    (message (str "}A  now ")) exampleConfig
  = invoke firstA (message (str "}A  now ")) (str "now") exampleConfig.
Proof.
  apply (load_then_dispatch_reaches_command exampleConstruct
           (fun _ => builtIn "}allow") (fun _ => builtIn "}unrestrict")
           (fun _ => builtIn "}ban") (fun _ _ => builtIn "}settings")
           (fun _ => builtIn "}reload") ascii_toLowerCase
           (manager [echoCommand]) tt exampleConfig exampleConfig
           [str "ping.js"; str "a1.js"; str "a3.js"]
           (message (str "}A  now ")) firstA).
  - intros f command H. exact (proj1 (exampleConstruct_aliases f command H)).
  - right. left. reflexivity.
  - left. reflexivity.
Defined.

Lemma load_setting_names_distinct_witness :
  NoDup (map settingName
             (createSettingsHierarchyForCommands [pingCommand; firstA])).
Proof.
  apply (load_setting_names_distinct exampleConstruct
           (fun _ => builtIn "}allow") (fun _ => builtIn "}unrestrict")
           (fun _ => builtIn "}ban") (fun _ _ => builtIn "}settings")
           (fun _ => builtIn "}reload")
           (manager [echoCommand]) tt exampleConfig
           [str "ping.js"; str "a1.js"; str "a3.js"] (str "commands")).
  - intros f command H.
    destruct (exampleConstruct_aliases f command H). auto.
  - reflexivity.
Defined.

Lemma load_is_independent_of_previous_state_witness :
  exampleLoad (manager [echoCommand]) tt exampleConfig
              (Listed [str "ping.js"; str "a1.js"])
  = exampleLoad (manager []) tt exampleConfig
                (Listed [str "ping.js"; str "a1.js"]).
Proof.
  apply (load_is_independent_of_previous_state exampleConstruct
           (fun _ => builtIn "}allow") (fun _ => builtIn "}unrestrict")
           (fun _ => builtIn "}ban") (fun _ _ => builtIn "}settings")
           (fun _ => builtIn "}reload")
           (manager [echoCommand]) (manager []) tt exampleConfig
           [str "ping.js"; str "a1.js"]).
  reflexivity.
Defined.

(** ** Font helper *)

Module FontHelperFacts.
Import FontHelper.

Lemma Array_from_cons (h : N) (t : jsstring) :
  exists character more,
    Array_from (h :: t) = character :: Array_from more
    /\ h :: t = character ++ more
    /\ isCodePoint character
    /\ (more = t \/ exists l, t = l :: more).
Proof.
  cbn [Array_from]. destruct t as [|l t'].
  - exists [h], []. repeat split; [left; eauto | now left].
  - destruct (isHighSurrogate h && isLowSurrogate l) eqn:E.
    + apply andb_true_iff in E. exists [h; l], t'.
      repeat split; [right; exists h, l; tauto | right; eauto].
    + exists [h], (l :: t'). repeat split; [left; eauto | now left].
Qed.

Lemma Array_from_spec (s : jsstring) :
  List.concat (Array_from s) = s /\ Forall isCodePoint (Array_from s).
Proof.
  assert (G : forall n (s : jsstring),
             (List.length s <= n)%nat ->
             List.concat (Array_from s) = s /\ Forall isCodePoint (Array_from s)).
  { induction n as [|n IH]; intros [|h t] Hlen; cbn [List.length] in Hlen;
      try (split; [reflexivity | constructor]); try lia.
    destruct (Array_from_cons h t) as (character & more & E & Hs & Hc & Hm).
    assert (Hle : (List.length more <= n)%nat).
    { destruct Hm as [->|[l ->]]; cbn [List.length] in *; lia. }
    destruct (IH more Hle) as [IH1 IH2].
    rewrite E. cbn [List.concat]. rewrite IH1.
    split; [now symmetry | now constructor]. }
  exact (G (List.length s) s (le_n _)).
Qed.

(** [Array.from] loses nothing: the characters it yields, put back
    together, are the string; each is one code unit or a surrogate pair, and
    only the empty string yields no character. *)
Theorem Array_from_round_trip (s : jsstring) :
  List.concat (Array_from s) = s
  /\ Forall isCodePoint (Array_from s)
  /\ (Array_from s = [] <-> s = []).
Proof.
  destruct (Array_from_spec s) as [H1 H2].
  split; [exact H1|]. split; [exact H2|].
  split; intros E.
  - rewrite <- H1, E. reflexivity.
  - now rewrite E.
Qed.

(** X16. The empty string can be rendered in every font family, known or
    not; a family that is not in the map of supported characters renders
    nothing else. *)
Theorem unknown_family_renders_only_empty_string
        (this : FontHelper) (family : jsstring) :
  fontFamilyCanRenderString this family [] = true
  /\ (supportedCharactersForFontFamily this family = None ->
      forall string,
        fontFamilyCanRenderString this family string = true <-> string = []).
Proof.
  split; [reflexivity|].
  intros Hnone string. split; [|intros ->; reflexivity].
  unfold fontFamilyCanRenderString. intros H.
  destruct string as [|h t]; [reflexivity|].
  destruct (Array_from_cons h t) as (character & more & E & _).
  rewrite E in H. cbn [forallb] in H.
  unfold fontFamilyCanRenderCharacter in H at 1. rewrite Hnone in H.
  discriminate H.
Qed.

Lemma find_renders_none (this : FontHelper) (string : jsstring) :
  find (fun f => fontFamilyCanRenderString this (fontFamily f) string)
       (fonts this) = None ->
  forall f, In f (fonts this) ->
            fontFamilyCanRenderString this (fontFamily f) string = false.
Proof. intros H f Hin. exact (find_none _ _ H f Hin). Qed.

(** X17. Where the requested family or one of the loaded fonts can render
    the string, [coerceFontFamily] returns a family that can render it: the
    requested one if it can, else that of the first font that can (font
    families being non-empty strings). *)
Theorem coerceFontFamily_renders
        (this : FontHelper) (family string : jsstring) :
  Forall (fun f => fontFamily f <> []) (fonts this) ->
  fontFamilyCanRenderString this family string = true
  \/ (exists f, In f (fonts this)
                /\ fontFamilyCanRenderString this (fontFamily f) string = true) ->
  exists result,
    coerceFontFamily this family string = Normal result
    /\ fontFamilyCanRenderString this result string = true
    /\ (fontFamilyCanRenderString this family string = true ->
        result = family).
Proof.
  intros Hne Hcan. unfold coerceFontFamily.
  destruct (fontFamilyCanRenderString this family string) eqn:E.
  - exists family. auto.
  - destruct Hcan as [Hcan|(f & Hin & Hf)]; [discriminate|].
    destruct (find _ (fonts this)) as [g|] eqn:F.
    + apply find_some in F. destruct F as [Hg Hr].
      rewrite Forall_forall in Hne. specialize (Hne g Hg).
      destruct (fontFamily g) as [|u fam] eqn:G; [congruence|].
      exists (u :: fam). repeat split; [exact Hr | discriminate].
    + rewrite (find_renders_none this string F f Hin) in Hf. discriminate.
Qed.

(** X18. Coercing twice is coercing once: the family [coerceFontFamily]
    returns for a string is returned unchanged when it is coerced for the
    same string again. *)
Theorem coerceFontFamily_idempotent
        (this : FontHelper) (family string result : jsstring) :
  coerceFontFamily this family string = Normal result ->
  coerceFontFamily this result string = Normal result.
Proof.
  unfold coerceFontFamily.
  destruct (fontFamilyCanRenderString this family string) eqn:E.
  - intros H. injection H as <-. now rewrite E.
  - destruct (find _ (fonts this)) as [g|] eqn:F.
    + pose proof (find_some _ _ F) as [Hg Hr].
      destruct (fontFamily g) as [|u fam] eqn:G.
      * intros H.
        destruct (fontFamilyCanRenderString this result string);
          [reflexivity | exact H].
      * intros H. injection H as <-. now rewrite Hr.
    + intros H.
      destruct (fontFamilyCanRenderString this result string);
        [reflexivity | exact H].
Qed.

(** X19. [coerceFontFamily] throws exactly when no font is loaded and the
    requested family cannot render the string; what it returns otherwise is
    the requested family or the family of a loaded font. *)
Theorem coerceFontFamily_range
        (this : FontHelper) (family string : jsstring) :
  (coerceFontFamily this family string = ThrowTypeError
   <-> fonts this = []
       /\ fontFamilyCanRenderString this family string = false)
  /\ forall result,
      coerceFontFamily this family string = Normal result ->
      result = family
      \/ exists f, In f (fonts this) /\ fontFamily f = result.
Proof.
  unfold coerceFontFamily, firstFontFamily.
  destruct (fontFamilyCanRenderString this family string) eqn:E.
  - split.
    + split; [discriminate | intros [_ H]; discriminate].
    + intros result H. injection H as <-. now left.
  - destruct (fonts this) as [|f0 rest] eqn:Hfonts.
    + cbn [find]. split; [tauto | discriminate].
    + split.
      * split; [|intros [H _]; discriminate].
        destruct (find _ (f0 :: rest)) as [g|]; [|discriminate].
        destruct (fontFamily g); discriminate.
      * intros result H. right.
        destruct (find _ (f0 :: rest)) as [g|] eqn:F.
        -- destruct (fontFamily g) as [|u fam] eqn:G.
           ++ injection H as <-. exists f0. split; [now left | reflexivity].
           ++ injection H as <-. exists g.
              split; [exact (proj1 (find_some _ _ F)) | exact G].
        -- injection H as <-. exists f0. split; [now left | reflexivity].
Qed.


Lemma coerceFontFamily_renders_witness :
  coerceFontFamily exampleHelper (str "Latin") [12354%N; 12356%N]
  = Normal (str "Kana").
Proof.
  destruct (coerceFontFamily_renders exampleHelper (str "Latin")
              [12354%N; 12356%N]) as (result & E & _ & _).
  - repeat constructor; discriminate.
  - right. exists kanaFont. split; [now left | reflexivity].
  - rewrite E. vm_compute in E. exact (eq_sym E).
Defined.

Lemma coerceFontFamily_idempotent_witness :
  coerceFontFamily exampleHelper (str "Kana") [8364%N] = Normal (str "Kana").
Proof.
  apply (coerceFontFamily_idempotent exampleHelper (str "Comic")
           [8364%N] (str "Kana")).
  reflexivity.
Defined.

Lemma unknown_family_renders_only_empty_string_witness :
  fontFamilyCanRenderString exampleHelper (str "Comic") (str "a") <> true.
Proof.
  destruct (unknown_family_renders_only_empty_string exampleHelper
              (str "Comic")) as [_ H].
  intros E. apply (H eq_refl (str "a")) in E. discriminate E.
Defined.


End FontHelperFacts.

(** ** Word data for shiritori *)

(** A string pattern of one code unit is replaced where it first occurs. *)
Lemma String_replace_unit_first (pre post rep : jsstring) (c : N) :
  ~ In c pre ->
  String_replace (pre ++ c :: post) [c] rep = pre ++ rep ++ post.
Proof.
  intros H. unfold String_replace, String_indexOf.
  rewrite indexOfFrom_unit_first by exact H.
  destruct (Z.eqb_spec (0 + Z.of_nat (List.length pre)) (-1)) as [E|_]; [lia|].
  replace (Z.to_nat (0 + Z.of_nat (List.length pre))) with (List.length pre) by lia.
  rewrite firstn_app, firstn_all, Nat.sub_diag. cbn [firstn].
  rewrite app_nil_r. do 2 f_equal.
  replace (pre ++ c :: post) with ((pre ++ [c]) ++ post)
    by (rewrite <- app_assoc; reflexivity).
  replace (List.length pre + List.length [c])%nat
    with (List.length (pre ++ [c])) by apply length_app.
  rewrite skipn_app, skipn_all, Nat.sub_diag. reflexivity.
Qed.

(** A string pattern at the head of the text is what is replaced. *)
Lemma String_replace_prefix (pat rest rep : jsstring) :
  String_replace (pat ++ rest) pat rep = rep ++ rest.
Proof.
  unfold String_replace, String_indexOf.
  assert (E : indexOfFrom pat (pat ++ rest) 0 = 0).
  { destruct (pat ++ rest) eqn:D; cbn [indexOfFrom];
      rewrite <- D;
      rewrite (proj2 (isPrefix_spec pat (pat ++ rest))) by (now exists rest);
      reflexivity. }
  rewrite E. cbn [Z.eqb Z.to_nat firstn app Nat.add].
  replace (skipn (List.length pat) (pat ++ rest)) with rest; [reflexivity|].
  rewrite skipn_app, skipn_all, Nat.sub_diag. reflexivity.
Qed.

Lemma trimStart_id (s : jsstring) :
  Forall (fun c => isWhiteSpace c = false) s -> trimStart s = s.
Proof.
  destruct s as [|c s]; [reflexivity|]. intros H. inversion H; subst.
  cbn [trimStart]. now rewrite H2.
Qed.

Lemma trim_id (s : jsstring) :
  Forall (fun c => isWhiteSpace c = false) s -> trim s = s.
Proof.
  intros H. unfold trim, trimEnd. rewrite (trimStart_id s H).
  rewrite (trimStart_id (rev s)) by (now apply Forall_rev).
  apply rev_involutive.
Qed.

Lemma trim_trailing_space (s : jsstring) :
  Forall (fun c => isWhiteSpace c = false) s -> trim (s ++ [SPACE]) = s.
Proof.
  intros H. unfold trim, trimEnd.
  destruct s as [|c s].
  - reflexivity.
  - replace (trimStart ((c :: s) ++ [SPACE])) with ((c :: s) ++ [SPACE]).
    + rewrite rev_unit. cbn [trimStart].
      change (isWhiteSpace SPACE) with true. cbv iota.
      rewrite (trimStart_id (rev (c :: s))) by (now apply Forall_rev).
      apply rev_involutive.
    + inversion H; subst. cbn [app trimStart]. now rewrite H2.
Qed.

Module ShiritoriFacts.
Import ShiritoriWordData.

Lemma split_nonempty (sep : N) (s : jsstring) : split sep s <> [].
Proof.
  destruct s as [|c s]; cbn [split]; [discriminate|].
  destruct (c =? sep)%N; [discriminate|].
  destruct (split sep s); discriminate.
Qed.

Lemma split_no_separator (sep : N) (s : jsstring) :
  ~ In sep s -> split sep s = [s].
Proof.
  induction s as [|c s IH]; intros H; cbn [split]; [reflexivity|].
  destruct (N.eqb_spec c sep) as [->|_].
  - exfalso. apply H. now left.
  - rewrite IH; [reflexivity|]. intros Hin. apply H. now right.
Qed.

Lemma split_first (sep : N) (token rest : jsstring) :
  ~ In sep token ->
  split sep (token ++ sep :: rest) = token :: split sep rest.
Proof.
  induction token as [|c token IH]; intros H; cbn [app split].
  - now rewrite N.eqb_refl.
  - destruct (N.eqb_spec c sep) as [->|_].
    + exfalso. apply H. now left.
    + rewrite IH; [reflexivity|]. intros Hin. apply H. now right.
Qed.

Lemma get_pushOwn {A : Type} (key key' : jsstring) (value : A)
      (object : ObjectMap A) :
  get key' (pushOwn key value object)
  = if jsstring_eq_dec key key' then get key' object ++ [value]
    else get key' object.
Proof.
  induction object as [|[k values] object IH]; cbn [pushOwn get].
  - destruct (jsstring_eq_dec key key'); reflexivity.
  - destruct (jsstring_eq_dec k key) as [->|Hk]; cbn [get].
    + destruct (jsstring_eq_dec key key'); reflexivity.
    + destruct (jsstring_eq_dec k key') as [->|Hk'].
      * destruct (jsstring_eq_dec key key'); [congruence | reflexivity].
      * exact IH.
Qed.

Lemma countValues_pushOwn {A : Type} (key : jsstring) (value : A)
      (object : ObjectMap A) :
  countValues (pushOwn key value object) = S (countValues object).
Proof.
  unfold countValues.
  induction object as [|[k values] object IH]; cbn [pushOwn map].
  - reflexivity.
  - destruct (jsstring_eq_dec k key); cbn [map snd].
    + rewrite length_app. cbn [List.length].
      change (list_sum (?x :: ?l)) with (x + list_sum l)%nat. lia.
    + change (list_sum (?x :: ?l)) with (x + list_sum l)%nat.
      rewrite IH. lia.
Qed.

(** What a turn of the loop does to the two indexes when it completes. *)
Lemma processLine_normal (indexes indexes' : Indexes) (line : jsstring) :
  processLine indexes line = Normal indexes' ->
  (line = [] /\ indexes' = indexes)
  \/ (line <> []
      /\ exists word reading definitions,
          wordInformationsForReading indexes'
          = pushOwn reading {| word := word; definitions := definitions |}
                    (wordInformationsForReading indexes)
          /\ readingsForWord indexes'
             = pushOwn word reading (readingsForWord indexes)).
Proof.
  unfold processLine. destruct line as [|c line].
  - intros H. injection H as <-. now left.
  - destruct (parseHead (c :: line)) as [[[w r] tokens]|]; [|discriminate].
    cbn [bind]. unfold push.
    destruct (isObjectPrototypeKey r); [discriminate|]. cbn [bind].
    destruct (isObjectPrototypeKey w); [discriminate|]. cbn [bind].
    intros H. injection H as <-. right. split; [discriminate|].
    exists w, r, (parseDefinitions tokens). auto.
Qed.

Lemma processLines_consistent (lines : list jsstring)
      (indexes indexes' : Indexes) :
  consistent indexes ->
  processLines indexes lines = Normal indexes' ->
  consistent indexes'.
Proof.
  revert indexes; induction lines as [|line lines IH];
    intros indexes Hc; cbn [processLines].
  - intros H. injection H as <-. exact Hc.
  - destruct (processLine indexes line) as [next|] eqn:E; [|discriminate].
    cbn [bind]. apply IH.
    apply processLine_normal in E.
    destruct E as [[_ ->]|(_ & w0 & r0 & ds & E1 & E2)]; [exact Hc|].
    intros w r. rewrite E1, E2, !get_pushOwn. specialize (Hc w r).
    destruct (jsstring_eq_dec w0 w) as [->|Hw];
      destruct (jsstring_eq_dec r0 r) as [->|Hr].
    + split.
      * intros _. eexists. split; [apply in_or_app; right; now left|].
        reflexivity.
      * intros _. apply in_or_app. right. now left.
    + split.
      * intros H. apply in_app_or in H. destruct H as [H|[H|[]]];
          [now apply Hc | congruence].
      * intros H. apply in_or_app. left. now apply Hc.
    + split.
      * intros H. apply Hc in H. destruct H as (information & Hin & Hw').
        exists information. split; [apply in_or_app; now left | exact Hw'].
      * intros (information & Hin & Hw'). apply Hc.
        apply in_app_or in Hin. destruct Hin as [Hin|[<-|[]]];
          [eauto | cbn in Hw'; congruence].
    + exact Hc.
Qed.

(** X21. When the script completes, its two indexes mirror each other: a
    reading is listed under a word exactly when the word has an entry under
    that reading. *)
Theorem indexes_mirror_each_other (fileText : jsstring) (indexes : Indexes) :
  buildIndexes fileText = Normal indexes ->
  forall w r,
    In r (get w (readingsForWord indexes))
    <-> exists information,
      In information (get r (wordInformationsForReading indexes))
      /\ word information = w.
Proof.
  unfold buildIndexes. intros H. change (consistent indexes).
  apply (processLines_consistent (tl (split NEWLINE fileText))
                                 emptyIndexes indexes); [|exact H].
  intros w r. cbn. split; [intros [] | intros (? & [] & _)].
Qed.

Lemma processLines_count (lines : list jsstring) (indexes indexes' : Indexes) :
  processLines indexes lines = Normal indexes' ->
  let entries :=
    List.length (filter (fun line => match line with [] => false | _ => true end)
                        lines) in
  countValues (readingsForWord indexes')
  = (countValues (readingsForWord indexes) + entries)%nat
  /\ countValues (wordInformationsForReading indexes')
     = (countValues (wordInformationsForReading indexes) + entries)%nat.
Proof.
  revert indexes; induction lines as [|line lines IH];
    intros indexes; cbn [processLines filter].
  - intros H. injection H as <-. cbn. lia.
  - destruct (processLine indexes line) as [next|] eqn:E; [|discriminate].
    cbn [bind]. intros H. specialize (IH next H). cbv zeta in IH.
    apply processLine_normal in E.
    destruct E as [[-> ->]|(Hne & w0 & r0 & ds & E1 & E2)].
    + exact IH.
    + destruct line; [congruence|]. cbn [List.length].
      rewrite E1, E2, !countValues_pushOwn in IH. cbv zeta. lia.
Qed.

(** X22. When the script completes, each index holds one value for every
    non-empty line after the header: no line is dropped and none is merged
    with another, also when word and reading repeat. *)
Theorem indexes_hold_every_line (fileText : jsstring) (indexes : Indexes) :
  buildIndexes fileText = Normal indexes ->
  let entries :=
    List.length (filter (fun line => match line with [] => false | _ => true end)
                        (tl (split NEWLINE fileText))) in
  countValues (readingsForWord indexes) = entries
  /\ countValues (wordInformationsForReading indexes) = entries.
Proof.
  unfold buildIndexes. intros H.
  destruct (processLines_count _ emptyIndexes indexes H) as [H1 H2].
  cbv zeta in *. cbn in H1, H2. auto.
Qed.

Lemma processLines_throws (before after : list jsstring) (line : jsstring)
      (indexes : Indexes) :
  (forall indexes', processLine indexes' line = ThrowTypeError) ->
  processLines indexes (before ++ line :: after) = ThrowTypeError.
Proof.
  intros H. revert indexes.
  induction before as [|b before IH]; intros indexes;
    cbn [app processLines].
  - now rewrite H.
  - destruct (processLine indexes b); cbn [bind]; [apply IH | reflexivity].
Qed.

(** X23. The head of a line: the word is the text before the first space;
    a second token in brackets is the reading, without the brackets, and
    without it the word is its own reading.  A non-empty line that has no
    space at all makes the whole script throw. *)
Theorem parseHead_shapes (w r rest : jsstring) :
  ~ In SPACE w ->
  (forall c, In c r ->
             c <> SPACE /\ c <> LEFT_BRACKET /\ c <> RIGHT_BRACKET) ->
  parseHead (w ++ SPACE :: LEFT_BRACKET :: r ++ RIGHT_BRACKET :: SPACE :: rest)
  = Normal (w, r, split SPACE rest)
  /\ (startsWithBracket rest = false ->
      parseHead (w ++ SPACE :: rest) = Normal (w, w, split SPACE rest))
  /\ (w <> [] ->
      parseHead w = ThrowTypeError
      /\ forall fileText before after,
          tl (split NEWLINE fileText) = before ++ w :: after ->
          buildIndexes fileText = ThrowTypeError).
Proof.
  intros Hw Hr. split; [|split].
  - unfold parseHead. rewrite (split_first SPACE w) by exact Hw.
    replace (LEFT_BRACKET :: r ++ RIGHT_BRACKET :: SPACE :: rest)
      with ((LEFT_BRACKET :: r ++ [RIGHT_BRACKET]) ++ SPACE :: rest)
      by (cbn; rewrite <- app_assoc; reflexivity).
    rewrite (split_first SPACE).
    + cbn [startsWithBracket]. rewrite N.eqb_refl.
      pose proof (String_replace_unit_first [] (r ++ [RIGHT_BRACKET]) []
                                            LEFT_BRACKET (fun H => H)) as E.
      cbn [app] in E. rewrite E.
      rewrite (String_replace_unit_first r [] [] RIGHT_BRACKET).
      * now rewrite app_nil_r.
      * intros Hin. now destruct (Hr _ Hin) as (_ & _ & H).
    + intros [H|H]; [discriminate H|].
      apply in_app_or in H. destruct H as [H|[H|[]]]; [|discriminate H].
      now destruct (Hr _ H) as (H' & _).
  - intros Hb. unfold parseHead. rewrite (split_first SPACE w) by exact Hw.
    destruct (split SPACE rest) as [|token more] eqn:E.
    + now destruct (split_nonempty SPACE rest).
    + assert (Hs : startsWithBracket token = false).
      { destruct rest as [|c rest']; cbn [split] in E.
        - injection E as <- _. reflexivity.
        - cbn [startsWithBracket] in Hb.
          destruct (c =? SPACE)%N.
          + injection E as <- _. reflexivity.
          + destruct (split SPACE rest'); injection E as <- _; exact Hb. }
      now rewrite Hs.
  - intros Hne. assert (Hp : parseHead w = ThrowTypeError).
    { unfold parseHead. now rewrite (split_no_separator SPACE w Hw). }
    split; [exact Hp|].
    intros fileText before after E. unfold buildIndexes. rewrite E.
    apply processLines_throws. intros indexes'.
    unfold processLine. destruct w; [congruence|]. now rewrite Hp.
Qed.

Lemma matchPartsOfSpeech_no_paren (s : jsstring) :
  ~ In LEFT_PAREN s -> matchPartsOfSpeech s = None.
Proof.
  induction s as [|c s IH]; intros H; [reflexivity|].
  cbn [matchPartsOfSpeech group].
  destruct (N.eqb_spec c LEFT_PAREN) as [->|_].
  - exfalso. apply H. now left.
  - apply IH. intros Hin. apply H. now right.
Qed.

Lemma not_white_not_terminator (c : N) :
  isWhiteSpace c = false -> isLineTerminator c = false.
Proof.
  unfold isWhiteSpace, isLineTerminator. intros H.
  repeat (apply orb_false_iff in H; destruct H as [H ?]).
  apply andb_false_iff in H.
  repeat match goal with
         | E : (_ =? _)%N = false |- _ => apply N.eqb_neq in E
         end.
  repeat (apply orb_false_iff; split); apply N.eqb_neq; try assumption;
    destruct H as [H|H]; apply N.leb_gt in H; lia.
Qed.

Lemma lazyBody_tag (tag text : jsstring) :
  plainTag tag ->
  lazyBody (tag ++ RIGHT_PAREN :: SPACE :: text)
  = Some (tag ++ [RIGHT_PAREN; SPACE], text).
Proof.
  induction 1 as [|c tag (_ & Hc & Hw) _ IH]; cbn [app lazyBody].
  - rewrite !N.eqb_refl. reflexivity.
  - rewrite (proj2 (N.eqb_neq c RIGHT_PAREN) Hc). cbn [andb].
    rewrite (not_white_not_terminator c Hw), IH.
    destruct (tag ++ RIGHT_PAREN :: SPACE :: text); reflexivity.
Qed.

Lemma removeAll_plain (c : N) (s : jsstring) :
  ~ In c s -> removeAll c s = s.
Proof.
  unfold removeAll. induction s as [|x s IH]; intros H; cbn [filter];
    [reflexivity|].
  destruct (N.eqb_spec x c) as [->|_].
  - exfalso. apply H. now left.
  - cbn [negb]. rewrite IH; [reflexivity|]. intros Hin. apply H. now right.
Qed.

(** X24. A part of a definition without "(" is the meaning as it stands,
    with no part of speech.  A part that starts with one tag in
    parentheses, "(tag) text", has the text as its meaning; its part of
    speech is "noun" for the tag "n", and any other tag is dropped unless it
    is a property name every object inherits. *)
Theorem parseDefinitionPart_shapes (tag text : jsstring) :
  (~ In LEFT_PAREN text ->
   parseDefinitionPart text = {| meaning := text; partsOfSpeech := [] |})
  /\ (plainTag tag ->
      ~ In LEFT_PAREN (firstn 1 text) ->
      parseDefinitionPart (LEFT_PAREN :: tag ++ RIGHT_PAREN :: SPACE :: text)
      = {| meaning := text;
           partsOfSpeech :=
             if jsstring_eq_dec tag (str "n")
             then [PartOfSpeechString (str "noun")]
             else if isObjectPrototypeKey tag then [InheritedProperty tag]
             else [] |}).
Proof.
  split.
  - intros H. unfold parseDefinitionPart.
    now rewrite (matchPartsOfSpeech_no_paren text H).
  - intros Htag Htext. unfold parseDefinitionPart.
    assert (Hm : matchPartsOfSpeech
                   (LEFT_PAREN :: tag ++ RIGHT_PAREN :: SPACE :: text)
                 = Some (LEFT_PAREN :: tag ++ [RIGHT_PAREN; SPACE])).
    { cbn [matchPartsOfSpeech group]. rewrite N.eqb_refl.
      rewrite (lazyBody_tag tag text Htag).
      assert (Hg : groups 9 text = []).
      { assert (Hgrp : group text = None).
        { destruct text as [|c text']; [reflexivity|]. cbn [group].
          destruct (N.eqb_spec c LEFT_PAREN) as [->|_]; [|reflexivity].
          exfalso. apply Htext. now left. }
        cbn [groups]. now rewrite Hgrp. }
      rewrite Hg, app_nil_r. reflexivity. }
    rewrite Hm.
    replace (LEFT_PAREN :: tag ++ RIGHT_PAREN :: SPACE :: text)
      with ((LEFT_PAREN :: tag ++ [RIGHT_PAREN; SPACE]) ++ text)
      by (cbn; rewrite <- app_assoc; reflexivity).
    rewrite String_replace_prefix. cbn [app].
    unfold plainTag in Htag. rewrite Forall_forall in Htag.
    assert (H1 : removeAll LEFT_PAREN (LEFT_PAREN :: tag ++ [RIGHT_PAREN; SPACE])
                 = tag ++ [RIGHT_PAREN; SPACE]).
    { unfold removeAll. cbn [filter]. rewrite N.eqb_refl. cbn [negb].
      apply removeAll_plain. intros Hin. apply in_app_or in Hin.
      destruct Hin as [Hin|[Hin|[Hin|[]]]]; try discriminate Hin.
      now destruct (Htag _ Hin) as (H & _). }
    assert (H2 : removeAll RIGHT_PAREN (tag ++ [RIGHT_PAREN; SPACE])
                 = tag ++ [SPACE]).
    { unfold removeAll. rewrite filter_app. cbn [filter].
      rewrite N.eqb_refl. cbn [negb].
      change (negb (SPACE =? RIGHT_PAREN)%N) with true. cbv iota. f_equal.
      apply removeAll_plain. intros Hin.
      now destruct (Htag _ Hin) as (_ & H & _). }
    assert (Hw : Forall (fun c => isWhiteSpace c = false) tag).
    { apply Forall_forall. intros c Hin. now destruct (Htag _ Hin) as (_ & _ & H). }
    rewrite H1, H2, (trim_trailing_space tag Hw).
    rewrite split_no_separator.
    + cbn [map]. rewrite (trim_id tag Hw). unfold newDefinition.
      cbn [flat_map]. rewrite app_nil_r. unfold partOfSpeechStringForId.
      destruct (jsstring_eq_dec tag (str "n")); [reflexivity|].
      destruct (isObjectPrototypeKey tag); reflexivity.
    + intros Hin. rewrite Forall_forall in Hw. specialize (Hw _ Hin).
      discriminate Hw.
Qed.

Lemma indexes_mirror_each_other_witness :
  In (str "NEKO") (get (str "neko")
                       [(str "neko", [str "NEKO"; str "NYAN"])]).
Proof.
  apply (proj2 (indexes_mirror_each_other
                  (str "header" ++ [NEWLINE] ++ str "neko [NEKO] /(n) cat/"
                   ++ [NEWLINE] ++ str "neko [NYAN] /(n) meow/" ++ [NEWLINE])
                  {| wordInformationsForReading :=
                       [(str "NEKO",
                         [{| word := str "neko";
                             definitions :=
                               [{| meaning := str "cat";
                                   partsOfSpeech :=
                                     [PartOfSpeechString (str "noun")] |}] |}]);
                        (str "NYAN",
                         [{| word := str "neko";
                             definitions :=
                               [{| meaning := str "meow";
                                   partsOfSpeech :=
                                     [PartOfSpeechString (str "noun")] |}] |}])];
                     readingsForWord :=
                       [(str "neko", [str "NEKO"; str "NYAN"])] |}
                  eq_refl (str "neko") (str "NEKO"))).
  eexists. split; [left; reflexivity | reflexivity].
Defined.

Lemma indexes_hold_every_line_witness :
  countValues [(str "neko", [str "NEKO"; str "neko"])] = 2%nat.
Proof.
  apply (indexes_hold_every_line
           (str "header" ++ [NEWLINE] ++ str "neko [NEKO] /(n) cat/"
            ++ [NEWLINE] ++ [NEWLINE] ++ str "neko /x/")
           {| wordInformationsForReading :=
                [(str "NEKO",
                  [{| word := str "neko";
                      definitions :=
                        [{| meaning := str "cat";
                            partsOfSpeech :=
                              [PartOfSpeechString (str "noun")] |}] |}]);
                 (str "neko",
                  [{| word := str "neko";
                      definitions :=
                        [{| meaning := str "x"; partsOfSpeech := [] |}] |}])];
              readingsForWord := [(str "neko", [str "NEKO"; str "neko"])] |}
           eq_refl).
Defined.

Lemma parseHead_shapes_witness :
  parseHead (str "neko [NEKO] /(n) cat/")
  = Normal (str "neko", str "NEKO", [str "/(n)"; str "cat/"])
  /\ buildIndexes (str "header" ++ [NEWLINE] ++ str "neko") = ThrowTypeError.
Proof.
  assert (Hw : ~ In SPACE (str "neko")) by (cbv; intuition discriminate).
  assert (Hr : forall c, In c (str "NEKO") ->
                         c <> SPACE /\ c <> LEFT_BRACKET /\ c <> RIGHT_BRACKET).
  { intros c H. cbv in H.
    repeat (destruct H as [<-|H]; [repeat split; discriminate|]). destruct H. }
  destruct (parseHead_shapes (str "neko") (str "NEKO") (str "/(n) cat/") Hw Hr)
    as (H1 & _ & H3).
  split; [exact H1|].
  destruct (H3 ltac:(discriminate)) as [_ H].
  apply (H _ [] []). reflexivity.
Defined.

Lemma parseDefinitionPart_shapes_witness :
  parseDefinitionPart (str "(n) cat")
  = {| meaning := str "cat";
       partsOfSpeech := [PartOfSpeechString (str "noun")] |}
  /\ parseDefinitionPart (str "(v5r) to run")
     = {| meaning := str "to run"; partsOfSpeech := [] |}.
Proof.
  split.
  - apply (proj2 (parseDefinitionPart_shapes (str "n") (str "cat"))).
    + repeat constructor; discriminate.
    + cbv. intuition discriminate.
  - apply (proj2 (parseDefinitionPart_shapes (str "v5r") (str "to run"))).
    + repeat constructor; discriminate.
    + cbv. intuition discriminate.
Defined.

End ShiritoriFacts.

(** ** Further instances *)

Lemma load_accounts_for_every_file_witness :
  exists f,
    In f [str "a1.js"; str "a2.js"; str "nope.js"]
    /\ exampleConstruct f = inl firstA.
Proof.
  destruct (load_accounts_for_every_file exampleConstruct
              [str "a1.js"; str "a2.js"; str "nope.js"]) as (_ & _ & H).
  apply (H firstA). left. reflexivity.
Defined.

Lemma processInput_claims_iff_alias_registered_witness :
  returned (processInput ascii_toLowerCase (manager [pingCommand])
                         (message (str "}pong")) exampleConfig)
  = Normal false
  /\ exists c rest,
      selects [echoCommand; pingCommand] (str "}p") c
      /\ immediate (processInput ascii_toLowerCase
                                 (manager [echoCommand; pingCommand])
                                 (message (str "}P 1")) exampleConfig)
         = Handle c (message (str "}P 1")) (str "1") exampleConfig :: rest.
Proof.
  split.
  - destruct (processInput_claims_iff_alias_registered ascii_toLowerCase
                (manager [pingCommand]) (message (str "}pong")) exampleConfig)
      as [H _].
    apply (proj2 H). intros c [<-|[]]. vm_compute. intuition discriminate.
  - destruct (processInput_claims_iff_alias_registered ascii_toLowerCase
                (manager [echoCommand; pingCommand]) (message (str "}P 1"))
                exampleConfig) as (_ & _ & H).
    destruct (H pingCommand (or_intror (or_introl eq_refl))
                (or_intror (or_introl eq_refl)))
      as (_ & c & rest & Hsel & Him & _).
    exists c, rest. split; [exact Hsel | exact Him].
Defined.

Lemma inputSuffix_is_trimmed_witness : isWhiteSpace 110%N = false.
Proof.
  destruct (inputSuffix_is_trimmed
              (message (str "}a " ++ [IDEOGRAPHIC_SPACE] ++ str "now ")))
    as (_ & H & _).
  apply (H 110%N (str "ow")). reflexivity.
Defined.

Lemma Array_from_round_trip_witness :
  FontHelper.Array_from [55357%N; 56832%N; 97%N] <> [].
Proof.
  destruct (FontHelperFacts.Array_from_round_trip [55357%N; 56832%N; 97%N])
    as (_ & _ & H).
  intros E. apply (proj1 H) in E. discriminate E.
Defined.

Lemma coerceFontFamily_range_witness :
  FontHelper.coerceFontFamily
    {| FontHelper.fonts := [];
       FontHelper.allowedFonts := [];
       FontHelper.supportedCharactersForFontFamily := fun _ => None |}
    (str "Latin") (str "a")
  = ThrowTypeError.
Proof.
  destruct (FontHelperFacts.coerceFontFamily_range
              {| FontHelper.fonts := [];
                 FontHelper.allowedFonts := [];
                 FontHelper.supportedCharactersForFontFamily := fun _ => None |}
              (str "Latin") (str "a")) as [H _].
  apply (proj2 H). split; reflexivity.
Defined.
